(** * The order-7 polyharmonic kernel [autofunc0] of [wrapped_code_4.c]

    The C file holds one function, generated by sympy's [ufuncify]:

<<
    double autofunc0(double x0, double x1, double c0, double c1, double eps) {
       double autofunc0_result;
       if (sqrt(pow(-c0 + x0, 2) + pow(-c1 + x1, 2)) <= 0.0) {
          autofunc0_result = 0;
       }
       else {
          autofunc0_result = pow(eps, 7)*pow(pow(-c0 + x0, 2) + pow(-c1 + x1, 2), 7.0/2.0);
       }
       return autofunc0_result;
    }
>>

    The function is embedded twice.

    - [B64.autofunc0] is the function as it executes: a [double] is an IEEE
      754 binary64 number ([spec_float] at precision 53), [+], [*], [/],
      [sqrt] and [<=] are the IEEE operations with rounding to nearest even,
      overflow to infinity, gradual underflow, signed zeros and NaN.  [pow]
      belongs to the C library, not to this file: it is a parameter, and each
      theorem names the facts about [pow] it relies on.  [B64.pow_cr] is one
      conforming [pow], correctly rounded, used to evaluate the function on
      concrete inputs.

    - [autofunc0] is the real-number reading of the same expression: every
      operation returns its exact mathematical value.  It is what the
      binary64 function computes whenever no operation rounds. *)

From Stdlib Require Import Reals Lra Lia ZArith Zfloor Bool.
From Stdlib Require Import QArith Qpower Qreals.
From Stdlib Require Import Floats.SpecFloat.

Local Open Scope R_scope.

(** ** The real-number reading

    The two functions of [<math.h>] the code calls, on real numbers. *)

Module Libm.

(** [sqrt]: the real square root.  C reports a domain error below zero;
    the only argument [autofunc0] passes is a sum of two squares. *)
Definition sqrt (x : R) : R := R_sqrt.sqrt x.

(** [pow(x, y)], by the cases of the C standard (C11 7.12.7.4, F.10.4.4):
    - an integral exponent gives the integer power, for every base
      (so [pow(x, 2)] is [x * x] also for negative [x], and
      [pow(0, 7)] is [0]);
    - a non-integral exponent on a positive base is [exp (y * ln x)];
    - a non-integral positive exponent on a zero base gives [0].
    The results C reports as infinite or NaN (zero base with a negative
    exponent, negative base with a non-integral exponent) have no
    counterpart in [R]; the last branch returns [0] there as well.
    [autofunc0] never reaches them: its exponents are [2], [7] and
    [7/2], and the base of the last one is a sum of two squares. *)
Definition pow (x y : R) : R :=
  if Req_dec_T y (IZR (Zfloor y))
  then powerRZ x (Zfloor y)
  else if Rlt_dec 0 x then Rpower x y else 0.

End Libm.

(** The function, on real numbers. *)

Definition autofunc0 (x0 x1 c0 c1 eps : R) : R :=
  if Rle_dec (Libm.sqrt (Libm.pow (- c0 + x0) 2 + Libm.pow (- c1 + x1) 2)) 0
  then 0
  else Libm.pow eps 7
       * Libm.pow (Libm.pow (- c0 + x0) 2 + Libm.pow (- c1 + x1) 2) (7 / 2).

(** The Euclidean distance of the specification,
    [r = sqrt((x0-c0)^2 + (x1-c1)^2)]. *)
Definition distance (x0 x1 c0 c1 : R) : R :=
  R_sqrt.sqrt ((x0 - c0) ^ 2 + (x1 - c1) ^ 2).

(** ** IEEE 754 binary64 *)

Module Double.

Local Open Scope Z_scope.

(** A [double]: precision 53, infinities at exponent 1024, smallest
    exponent [emin = -1074].  A finite number [S754_finite s m e] is
    [(-1)^s * m * 2^e]. *)
Definition prec : Z := 53.
Definition emax : Z := 1024.
Definition emin : Z := SpecFloat.emin prec emax.
Definition double : Type := spec_float.

(** The operators of the C expression. *)
Definition add : double -> double -> double := SFadd prec emax.
Definition mul : double -> double -> double := SFmul prec emax.
Definition div : double -> double -> double := SFdiv prec emax.
Definition sqrt : double -> double := SFsqrt prec emax.
Definition sub : double -> double -> double := SFsub prec emax.
Definition neg : double -> double := SFopp.
Definition abs : double -> double := SFabs.
Definition leb : double -> double -> bool := SFleb.
Definition ltb : double -> double -> bool := SFltb.

(** Conversion of an integer constant, and the constants of the source:
    [0.0], [2], [7] and [7.0/2.0]. *)
Definition of_int (n : Z) : double := binary_normalize prec emax n 0 false.
Definition zero : double := S754_zero false.
Definition two : double := of_int 2.
Definition seven : double := of_int 7.
Definition seven_halves : double := div (of_int 7) (of_int 2).

(** Powers of two, to write inputs down. *)
Definition pow2 (e : Z) : double := binary_normalize prec emax 1 e false.

(** *** Classification *)

Definition is_nan (f : double) : bool :=
  match f with S754_nan => true | _ => false end.

Definition is_zero (f : double) : bool :=
  match f with S754_zero _ => true | _ => false end.

Definition is_finite (f : double) : bool :=
  match f with S754_zero _ | S754_finite _ _ _ => true | _ => false end.

(** The sign bit; NaN carries none here. *)
Definition sign_bit (f : double) : bool :=
  match f with
  | S754_zero s | S754_infinity s | S754_finite s _ _ => s
  | S754_nan => false
  end.

(** A well-formed double. *)
Definition valid (f : double) : bool := valid_binary prec emax f.

(** Finite numbers whose exponent is not below [emin]: every valid double
    is one, and so is every result of a rounding. *)
Definition on_grid (f : double) : Prop :=
  match f with S754_finite _ _ e => emin <= e | _ => True end.

(** Same double, or two zeros: what C's [==] cannot tell apart, NaN aside. *)
Definition same_value (a b : double) : Prop :=
  a = b \/ (is_zero a = true /\ is_zero b = true).

(** *** Exact values *)

(** The rational value of a finite double (0 for the others). *)
Definition to_Q (f : double) : Q :=
  match f with
  | S754_finite s m e => (inject_Z (cond_Zopp s (Zpos m)) * Qpower 2 e)%Q
  | _ => 0%Q
  end.

Definition to_R (f : double) : R := Q2R (to_Q f).

(** The value of a finite double on the grid, counted in units of
    [2^emin]. *)
Definition scaled (f : double) : Z :=
  match f with
  | S754_finite s m e => cond_Zopp s (Zpos m * 2 ^ (e - emin))
  | _ => 0
  end.

(** [f] is finite and its value is exactly [q]. *)
Definition exactly (f : double) (q : Q) : bool :=
  is_finite f && Qeq_bool (to_Q f) q.

(** The sum [x + t], computed in binary64, is finite and not rounded. *)
Definition exact_sum (x t : double) : bool :=
  is_finite (add x t) && (scaled (add x t) =? scaled x + scaled t).

(** Rounding an integer count of units of [2^emin]. *)
Definition norm (z : Z) : double := binary_normalize prec emax z emin false.

(** The first step of [binary_round]: align the mantissa, then shift it to
    its rounding position. *)
Definition round_position (m : positive) (e : Z) : shr_record * Z :=
  let '(mz, ez) :=
    shl_align m e (fexp prec emax (Zpos (digits2_pos m) + e)) in
  shr_fexp prec emax (Zpos mz) ez loc_Exact.

(** A finite double that rounding leaves alone: a zero, or a number of the
    grid equal to its own rounding.  Valid doubles and exact sums are
    such. *)
Definition normal (f : double) : Prop :=
  is_zero f = true
  \/ (is_finite f = true /\ on_grid f /\ f = norm (scaled f)).

(** *** What the theorems ask of the C library's [pow]

    [pow] is a function of [<math.h>], not of this file: the function below
    takes it as a parameter.  Each property here is a case of C11 F.10.4.4
    or the sign of a real power; none constrains how [pow] rounds. *)

(** [pow(-x, 2) = pow(x, 2)]. *)
Definition square_even (pow : double -> double -> double) : Prop :=
  forall x, pow (neg x) two = pow x two.

(** [pow(+0, 2) = +0]. *)
Definition square_of_zero (pow : double -> double -> double) : Prop :=
  pow zero two = zero.

(** [pow(x, 2)] is a double on the grid. *)
Definition square_on_grid (pow : double -> double -> double) : Prop :=
  forall x, on_grid (pow x two).

(** [pow(NaN, y)] is NaN for the three exponents. *)
Definition pow_nan (pow : double -> double -> double) : Prop :=
  pow S754_nan two = S754_nan /\ pow S754_nan seven = S754_nan
  /\ pow S754_nan seven_halves = S754_nan.

(** [pow(-x, 7) = -pow(x, 7)]. *)
Definition seventh_odd (pow : double -> double -> double) : Prop :=
  forall x, pow (neg x) seven = neg (pow x seven).

(** [pow(x, 7)], unless NaN, has the sign of [x]. *)
Definition seventh_keeps_sign (pow : double -> double -> double) : Prop :=
  forall x, is_nan (pow x seven) = false ->
            sign_bit (pow x seven) = sign_bit x.

(** [pow(+-0, 7) = +-0]. *)
Definition seventh_of_zero (pow : double -> double -> double) : Prop :=
  forall s, pow (S754_zero s) seven = S754_zero s.

(** [pow(x, 7/2)] never has its sign bit set: it is [+0], positive, [+inf]
    or NaN. *)
Definition half_power_unsigned (pow : double -> double -> double) : Prop :=
  forall x, sign_bit (pow x seven_halves) = false.

(** [pow(+-0, 7/2) = +0]. *)
Definition half_power_of_zero (pow : double -> double -> double) : Prop :=
  forall s, pow (S754_zero s) seven_halves = zero.

(** *** A conforming [pow]

    [pow_cr x y] is the correctly rounded power for an exponent [y] that is
    a positive multiple of [1/2], which covers [2], [7] and [7/2]; other
    exponents are not modelled and give NaN.  [twice y] is [2 * y] when that
    is a positive integer. *)
Definition twice (y : double) : option positive :=
  match y with
  | S754_finite false m e =>
      match e + 1 with
      | Z0 => Some m
      | Zpos k => Some (Pos.iter xO m k)
      | Zneg k =>
          if Zpos m mod 2 ^ Zpos k =? 0
          then Some (Z.to_pos (Zpos m / 2 ^ Zpos k)) else None
      end
  | _ => None
  end.

Definition odd (k : positive) : bool :=
  match k with xO _ => false | _ => true end.

(** [x^k] for an integer [k >= 1]: the exact power [m^k * 2^(k*e)], rounded
    once; the sign is that of [x] for odd [k]. *)
Definition int_pow (x : double) (k : positive) : double :=
  match x with
  | S754_nan => S754_nan
  | S754_zero s => S754_zero (s && odd k)
  | S754_infinity s => S754_infinity (s && odd k)
  | S754_finite s m e =>
      binary_round prec emax (s && odd k) (m ^ k) (Zpos k * e)
  end.

(** [x^(n/2)] for an odd [n]: the square root, rounded once, of the exact
    power [m^n * 2^(n*e)]; NaN below zero. *)
Definition half_pow (x : double) (n : positive) : double :=
  match x with
  | S754_nan => S754_nan
  | S754_zero _ => S754_zero false
  | S754_infinity _ => S754_infinity false
  | S754_finite true _ _ => S754_nan
  | S754_finite false m e => sqrt (S754_finite false (m ^ n) (Zpos n * e))
  end.

Definition pow_cr (x y : double) : double :=
  match twice y with
  | Some (xO k) => int_pow x k
  | Some n => half_pow x n
  | None => S754_nan
  end.

End Double.

(** ** The function on binary64

    [pow] is the C library's; the other operations are those of
    [Double]. *)

Module B64.

Import Double.

Definition autofunc0 (pow : double -> double -> double)
    (x0 x1 c0 c1 eps : double) : double :=
  if leb (sqrt (add (pow (add (neg c0) x0) two) (pow (add (neg c1) x1) two)))
         zero
  then of_int 0
  else mul (pow eps seven)
           (pow (add (pow (add (neg c0) x0) two) (pow (add (neg c1) x1) two))
                seven_halves).

(** The two subexpressions the source writes twice: the squared distance
    and, in the test, its square root. *)
Definition squared_distance (pow : double -> double -> double)
    (x0 x1 c0 c1 : double) : double :=
  add (pow (add (neg c0) x0) two) (pow (add (neg c1) x1) two).

Definition computed_distance (pow : double -> double -> double)
    (x0 x1 c0 c1 : double) : double :=
  sqrt (squared_distance pow x0 x1 c0 c1).

(** The expression of the [else] branch on its own. *)
Definition else_branch (pow : double -> double -> double)
    (x0 x1 c0 c1 eps : double) : double :=
  mul (pow eps seven)
      (pow (add (pow (add (neg c0) x0) two) (pow (add (neg c1) x1) two))
           seven_halves).

(** The function with the special case removed, as the specification words
    it: [eps^7 * ((x0-c0)^2 + (x1-c1)^2)^(7/2)]. *)
Definition autofunc0_unguarded (pow : double -> double -> double)
    (x0 x1 c0 c1 eps : double) : double :=
  mul (pow eps seven)
      (pow (add (pow (sub x0 c0) two) (pow (sub x1 c1) two)) seven_halves).

(** No operation of the evaluation of [autofunc0] rounds, overflows or
    underflows: each result is finite and is the exact value of the
    operation on its (finite) arguments.  The square root is exact when its
    square is its argument; the power [7/2] when it is the seventh power of
    that root.  The last three operations are only evaluated in the [else]
    branch. *)
Definition exact_evaluation (pow : double -> double -> double)
    (x0 x1 c0 c1 eps : double) : bool :=
  let a0 := add (neg c0) x0 in
  let a1 := add (neg c1) x1 in
  let p0 := pow a0 two in
  let p1 := pow a1 two in
  let d := add p0 p1 in
  let r := sqrt d in
  let e7 := pow eps seven in
  let q := pow d seven_halves in
  is_finite x0 && is_finite x1 && is_finite c0 && is_finite c1
  && is_finite eps
  && exactly a0 (to_Q x0 - to_Q c0)
  && exactly a1 (to_Q x1 - to_Q c1)
  && exactly p0 (to_Q a0 ^ 2)
  && exactly p1 (to_Q a1 ^ 2)
  && exactly d (to_Q p0 + to_Q p1)
  && exactly d (to_Q r * to_Q r) && is_finite r
  && (leb r zero
      || exactly e7 (to_Q eps ^ 7)
         && exactly q (to_Q r ^ 7)
         && exactly (mul e7 q) (to_Q e7 * to_Q q)).

(** The same for the two sides of the scaling law in [eps]: the product
    [k * eps], both evaluations, the power [pow(k, 7)] and the final product
    are all exact. *)
Definition exact_scaling (pow : double -> double -> double)
    (x0 x1 c0 c1 eps k : double) : bool :=
  is_finite k
  && exactly (mul k eps) (to_Q k * to_Q eps)
  && exact_evaluation pow x0 x1 c0 c1 (mul k eps)
  && exact_evaluation pow x0 x1 c0 c1 eps
  && exactly (pow k seven) (to_Q k ^ 7)
  && exactly (mul (pow k seven) (autofunc0 pow x0 x1 c0 c1 eps))
             (to_Q (pow k seven) * to_Q (autofunc0 pow x0 x1 c0 c1 eps)).

(** The arguments and the translation are finite doubles, and the four
    translated coordinates are computed without rounding. *)
Definition exact_translation (x0 x1 c0 c1 t0 t1 : double) : bool :=
  valid x0 && is_finite x0 && valid x1 && is_finite x1
  && valid c0 && is_finite c0 && valid c1 && is_finite c1
  && valid t0 && is_finite t0 && valid t1 && is_finite t1
  && exact_sum x0 t0 && exact_sum x1 t1
  && exact_sum c0 t0 && exact_sum c1 t1.

End B64.

(** ** [pow] at the three exponents of the code *)

Section PowFacts.

Lemma pow_integral (x : R) (n : Z) : Libm.pow x (IZR n) = powerRZ x n.
Proof.
  unfold Libm.pow. rewrite ZfloorZ.
  destruct (Req_dec_T (IZR n) (IZR n)) as [_ | ne]; [reflexivity | now elim ne].
Qed.

Lemma pow_2 (x : R) : Libm.pow x 2 = x ^ 2.
Proof. rewrite pow_integral. reflexivity. Qed.

Lemma pow_7 (x : R) : Libm.pow x 7 = x ^ 7.
Proof. rewrite pow_integral. reflexivity. Qed.

Lemma Zfloor_7_2 : Zfloor (7 / 2) = 3%Z.
Proof. apply Zfloor_eq. lra. Qed.

Lemma seven_halves_not_integral : 7 / 2 <> IZR (Zfloor (7 / 2)).
Proof. rewrite Zfloor_7_2. lra. Qed.

(** On a non-negative base the exponent [7/2] is the seventh power of the
    square root; at zero this is the C value [pow(0, 3.5) = 0]. *)
Lemma pow_7_2 (d : R) : 0 <= d -> Libm.pow d (7 / 2) = R_sqrt.sqrt d ^ 7.
Proof.
  intros Hd. unfold Libm.pow.
  destruct (Req_dec_T (7 / 2) (IZR (Zfloor (7 / 2)))) as [e | _].
  { now elim seven_halves_not_integral. }
  destruct (Rlt_dec 0 d) as [Hpos | Hnpos].
  - replace (7 / 2) with (/ 2 * INR 7) by (simpl; lra).
    rewrite <- Rpower_mult, Rpower_sqrt by assumption.
    apply Rpower_pow. now apply sqrt_lt_R0.
  - replace d with 0 by lra. rewrite sqrt_0. simpl. ring.
Qed.

End PowFacts.

(** ** Seventh powers and the distance *)

Section Signs.


(** The argument of [sqrt] and of the outer [pow] is a sum of two squares. *)
Lemma sum_of_squares_nonneg (a b : R) : 0 <= a ^ 2 + b ^ 2.
Proof. pose proof (pow2_ge_0 a). pose proof (pow2_ge_0 b). lra. Qed.

Lemma sum_of_squares_zero (a b : R) : a ^ 2 + b ^ 2 = 0 -> a = 0 /\ b = 0.
Proof.
  intros H. pose proof (pow2_ge_0 a) as Ha. pose proof (pow2_ge_0 b) as Hb.
  assert (Ha0 : Rsqr a = 0) by (rewrite Rsqr_pow2; lra).
  assert (Hb0 : Rsqr b = 0) by (rewrite Rsqr_pow2; lra).
  split; now apply Rsqr_eq_0.
Qed.

Lemma distance_nonneg (x0 x1 c0 c1 : R) : 0 <= distance x0 x1 c0 c1.
Proof. apply sqrt_pos. Qed.

(** The distance vanishes at the center and nowhere else. *)
Lemma distance_zero_iff (x0 x1 c0 c1 : R) :
  distance x0 x1 c0 c1 = 0 <-> x0 = c0 /\ x1 = c1.
Proof.
  unfold distance. split.
  - intros H. apply sqrt_eq_0 in H; [| apply sum_of_squares_nonneg].
    apply sum_of_squares_zero in H. lra.
  - intros [-> ->]. replace ((c0 - c0) ^ 2 + (c1 - c1) ^ 2) with 0 by ring.
    apply sqrt_0.
Qed.

(** The distance the code computes, from [-c + x], is the one of the
    specification, from [x - c]. *)
Lemma code_distance (x0 x1 c0 c1 : R) :
  Libm.sqrt (Libm.pow (- c0 + x0) 2 + Libm.pow (- c1 + x1) 2)
  = distance x0 x1 c0 c1.
Proof.
  unfold Libm.sqrt, distance. rewrite !pow_2. f_equal. ring.
Qed.

End Signs.

(** ** The two branches of [autofunc0] *)

Section Branches.

Variables x0 x1 c0 c1 eps : R.

(** The [if] branch is taken exactly when the distance is zero. *)
Lemma autofunc0_then : distance x0 x1 c0 c1 <= 0 -> autofunc0 x0 x1 c0 c1 eps = 0.
Proof.
  intros H. unfold autofunc0. rewrite code_distance.
  destruct (Rle_dec (distance x0 x1 c0 c1) 0); [reflexivity | contradiction].
Qed.

Lemma autofunc0_else :
  0 < distance x0 x1 c0 c1 ->
  autofunc0 x0 x1 c0 c1 eps
  = Libm.pow eps 7
    * Libm.pow (Libm.pow (- c0 + x0) 2 + Libm.pow (- c1 + x1) 2) (7 / 2).
Proof.
  intros H. unfold autofunc0. rewrite code_distance.
  destruct (Rle_dec (distance x0 x1 c0 c1) 0); [lra | reflexivity].
Qed.

(** The value of the [else] branch, in terms of the distance. *)
Lemma else_value :
  Libm.pow eps 7
  * Libm.pow (Libm.pow (- c0 + x0) 2 + Libm.pow (- c1 + x1) 2) (7 / 2)
  = eps ^ 7 * distance x0 x1 c0 c1 ^ 7.
Proof.
  rewrite pow_7, !pow_2, pow_7_2 by apply sum_of_squares_nonneg.
  unfold distance. do 3 f_equal. ring.
Qed.

(** Both branches agree with one closed form. *)
Lemma autofunc0_closed_form :
  autofunc0 x0 x1 c0 c1 eps = eps ^ 7 * distance x0 x1 c0 c1 ^ 7.
Proof.
  destruct (Rle_lt_dec (distance x0 x1 c0 c1) 0) as [Hz | Hpos].
  - rewrite autofunc0_then by assumption.
    pose proof (distance_nonneg x0 x1 c0 c1).
    replace (distance x0 x1 c0 c1) with 0 by lra. ring.
  - rewrite autofunc0_else by assumption. apply else_value.
Qed.

End Branches.

(** ** Concrete distances used below *)



(** ** Properties of the specification that the real-number reading and
       the code share *)







(** * The function as executed, on binary64 *)

Import Double.

(** ** Rounding keeps the sign *)

Section RoundingSign.

Local Open Scope Z_scope.

Lemma iter_pos_inv {A : Type} (P : A -> Prop) (f : A -> A) :
  (forall a, P a -> P (f a)) ->
  forall (n : positive) (a : A), P a -> P (iter_pos f n a).
Proof.
  intros Hf. induction n as [n IH | n IH |]; simpl; intros a Ha; auto.
Qed.

Lemma shr_1_nonneg (mrs : shr_record) : 0 <= shr_m mrs -> 0 <= shr_m (shr_1 mrs).
Proof.
  destruct mrs as [m r s]. simpl.
  destruct m as [| p | p]; [| destruct p |]; simpl; lia.
Qed.

Lemma shr_nonneg (mrs : shr_record) (e n : Z) :
  0 <= shr_m mrs -> 0 <= shr_m (fst (shr mrs e n)).
Proof.
  intros H. destruct n as [| p | p]; simpl; trivial.
  apply (iter_pos_inv (fun r => 0 <= shr_m r)); [apply shr_1_nonneg | exact H].
Qed.

Lemma shr_record_of_loc_m (m : Z) (l : location) :
  shr_m (shr_record_of_loc m l) = m.
Proof. destruct l as [| []]; reflexivity. Qed.

Lemma shr_fexp_nonneg (m e : Z) (l : location) :
  0 <= m -> 0 <= shr_m (fst (shr_fexp prec emax m e l)).
Proof.
  intros H. unfold shr_fexp. apply shr_nonneg.
  now rewrite shr_record_of_loc_m.
Qed.

Lemma round_nearest_even_nonneg (m : Z) (l : location) :
  0 <= m -> 0 <= round_nearest_even m l.
Proof.
  intros H. destruct l as [| []]; simpl; try destruct (Z.even m); lia.
Qed.

(** A rounded non-negative mantissa is a zero, a finite number or an
    infinity of the requested sign, never NaN. *)
Lemma binary_round_aux_sign (s : bool) (m e : Z) (l : location) :
  0 <= m ->
  is_nan (binary_round_aux prec emax s m e l) = false
  /\ sign_bit (binary_round_aux prec emax s m e l) = s.
Proof.
  intros Hm. unfold binary_round_aux.
  pose proof (shr_fexp_nonneg m e l Hm) as H1.
  destruct (shr_fexp prec emax m e l) as [mrs' e'].
  pose proof (shr_fexp_nonneg
                (round_nearest_even (shr_m mrs') (loc_of_shr_record mrs'))
                e' loc_Exact
                (round_nearest_even_nonneg _ _ H1)) as H2.
  destruct (shr_fexp prec emax _ e' loc_Exact) as [mrs'' e''].
  simpl in H2. destruct (shr_m mrs'') as [| p | p].
  - now split.
  - destruct (e'' <=? emax - prec); now split.
  - lia.
Qed.

Lemma binary_round_sign (s : bool) (m : positive) (e : Z) :
  is_nan (binary_round prec emax s m e) = false
  /\ sign_bit (binary_round prec emax s m e) = s.
Proof.
  unfold binary_round. destruct (shl_align m e _) as [mz ez].
  apply binary_round_aux_sign. lia.
Qed.

(** The sign of a product, of a sum of two unsigned numbers, and of a
    square root. *)
Lemma mul_sign (x y : double) :
  is_nan (mul x y) = false ->
  sign_bit (mul x y) = xorb (sign_bit x) (sign_bit y).
Proof.
  destruct x as [sx | sx | | sx mx ex], y as [sy | sy | | sy my ey];
    simpl; try reflexivity; try discriminate.
  intros _. apply binary_round_aux_sign. lia.
Qed.

Lemma mul_nan_l (x y : double) : is_nan (mul x y) = false -> is_nan x = false.
Proof. destruct x; simpl; trivial. Qed.

Lemma sqrt_sign (x : double) :
  is_nan (sqrt x) = false -> sign_bit (sqrt x) = sign_bit x.
Proof.
  destruct x as [s | [|] | | [|] m e]; simpl; try reflexivity; try discriminate.
  intros _. unfold SFsqrt_core_binary.
  destruct (Z.sqrtrem _) as [q r] eqn:Hq.
  apply binary_round_aux_sign.
  assert (Hfst : q = fst (Z.sqrtrem
    match (e - 2 * Z.min (fexp prec emax (Z.div2 (Zdigits2 (Z.pos m) + e + 1)))
                         (Z.div2 e)) with
    | 0 => Z.pos m
    | Z.pos _ => Z.shiftl (Z.pos m)
        (e - 2 * Z.min (fexp prec emax (Z.div2 (Zdigits2 (Z.pos m) + e + 1)))
                       (Z.div2 e))
    | Z.neg _ => 0
    end)) by now rewrite Hq.
  rewrite Hfst, Z.sqrtrem_sqrt. apply Z.sqrt_nonneg.
Qed.

End RoundingSign.

(** ** Comparisons with zero *)

Section CompareZero.


Lemma leb_inv_zero (f : double) :
  leb f zero = true ->
  is_nan f = false /\ (is_zero f = true \/ sign_bit f = true).
Proof. destruct f as [s | [|] | | [|] m e]; simpl; intros H; auto; discriminate. Qed.


Lemma ltb_zero_inv (f : double) :
  ltb zero f = true ->
  is_nan f = false /\ is_zero f = false /\ sign_bit f = false.
Proof. destruct f as [s | [|] | | [|] m e]; simpl; intros H; auto; discriminate. Qed.




(** A product with a zero is a zero or NaN. *)
Lemma mul_zero_l (s : bool) (y : double) :
  is_nan (mul (S754_zero s) y) = true \/ is_zero (mul (S754_zero s) y) = true.
Proof. destruct y; simpl; auto. Qed.

End CompareZero.

(** ** The sign of the result *)

Section ResultSign.

Variable pow : double -> double -> double.
Variables x0 x1 c0 c1 : double.

Lemma b64_guard_taken (eps : double) :
  leb (B64.computed_distance pow x0 x1 c0 c1) zero = true ->
  B64.autofunc0 pow x0 x1 c0 c1 eps = zero.
Proof.
  intros H. unfold B64.autofunc0.
  change (sqrt (add (pow (add (neg c0) x0) two) (pow (add (neg c1) x1) two)))
    with (B64.computed_distance pow x0 x1 c0 c1).
  now rewrite H.
Qed.

Lemma b64_guard_not_taken (eps : double) :
  leb (B64.computed_distance pow x0 x1 c0 c1) zero = false ->
  B64.autofunc0 pow x0 x1 c0 c1 eps = B64.else_branch pow x0 x1 c0 c1 eps.
Proof.
  intros H. unfold B64.autofunc0.
  change (sqrt (add (pow (add (neg c0) x0) two) (pow (add (neg c1) x1) two)))
    with (B64.computed_distance pow x0 x1 c0 c1).
  now rewrite H.
Qed.

(** Unless it is NaN, what the [else] branch returns has the sign of
    [eps]. *)
Lemma else_branch_sign (eps : double) :
  half_power_unsigned pow -> seventh_keeps_sign pow ->
  is_nan (B64.else_branch pow x0 x1 c0 c1 eps) = false ->
  sign_bit (B64.else_branch pow x0 x1 c0 c1 eps) = sign_bit eps.
Proof.
  intros Hhalf Hsev Hnan. unfold B64.else_branch in *.
  rewrite mul_sign by exact Hnan.
  rewrite Hhalf, xorb_false_r.
  apply Hsev. revert Hnan. apply mul_nan_l.
Qed.

(** The three outcomes: the guard's [+0], NaN, or a number with the sign of
    [eps]. *)
Lemma result_cases (eps : double) :
  half_power_unsigned pow -> seventh_keeps_sign pow ->
  B64.autofunc0 pow x0 x1 c0 c1 eps = zero
  \/ is_nan (B64.autofunc0 pow x0 x1 c0 c1 eps) = true
  \/ (is_nan (B64.autofunc0 pow x0 x1 c0 c1 eps) = false
      /\ sign_bit (B64.autofunc0 pow x0 x1 c0 c1 eps) = sign_bit eps).
Proof.
  intros Hhalf Hsev.
  destruct (leb (B64.computed_distance pow x0 x1 c0 c1) zero) eqn:Hg.
  - left. now apply b64_guard_taken.
  - right. rewrite (b64_guard_not_taken eps Hg).
    destruct (is_nan (B64.else_branch pow x0 x1 c0 c1 eps)) eqn:Hn.
    + now left.
    + right. split; [reflexivity | now apply else_branch_sign].
Qed.

(** With a zero [eps] the result is a zero or NaN. *)
Lemma result_zero_eps (s : bool) :
  seventh_of_zero pow ->
  is_nan (B64.autofunc0 pow x0 x1 c0 c1 (S754_zero s)) = true
  \/ is_zero (B64.autofunc0 pow x0 x1 c0 c1 (S754_zero s)) = true.
Proof.
  intros Hz.
  destruct (leb (B64.computed_distance pow x0 x1 c0 c1) zero) eqn:Hg.
  - right. now rewrite b64_guard_taken.
  - rewrite (b64_guard_not_taken _ Hg). unfold B64.else_branch.
    rewrite Hz. apply mul_zero_l.
Qed.

End ResultSign.

(** ** The correctly rounded [pow] meets what is asked of [pow] *)

Section ConformingPow.

Lemma pow_cr_two (x : double) : pow_cr x two = int_pow x 2.
Proof.
  unfold pow_cr.
  replace (twice two) with (Some 4%positive) by (vm_compute; reflexivity).
  reflexivity.
Qed.

Lemma pow_cr_seven (x : double) : pow_cr x seven = int_pow x 7.
Proof.
  unfold pow_cr.
  replace (twice seven) with (Some 14%positive) by (vm_compute; reflexivity).
  reflexivity.
Qed.

Lemma pow_cr_seven_halves (x : double) : pow_cr x seven_halves = half_pow x 7.
Proof.
  unfold pow_cr.
  replace (twice seven_halves) with (Some 7%positive)
    by (vm_compute; reflexivity).
  reflexivity.
Qed.

Lemma pow_cr_square_even : square_even pow_cr.
Proof.
  intros x. rewrite !pow_cr_two.
  destruct x as [[|] | [|] | | [|] m e]; reflexivity.
Qed.

Lemma pow_cr_nan : pow_nan pow_cr.
Proof. repeat split. Qed.

Lemma pow_cr_seventh_keeps_sign : seventh_keeps_sign pow_cr.
Proof.
  intros x. rewrite pow_cr_seven.
  destruct x as [s | s | | s m e]; simpl; intros H;
    try (now rewrite andb_true_r); try discriminate.
  rewrite andb_true_r. apply binary_round_sign.
Qed.

Lemma pow_cr_seventh_of_zero : seventh_of_zero pow_cr.
Proof. intros s. rewrite pow_cr_seven. simpl. now rewrite andb_true_r. Qed.

Lemma pow_cr_half_power_unsigned : half_power_unsigned pow_cr.
Proof.
  intros x. rewrite pow_cr_seven_halves.
  destruct x as [s | s | | [|] m e]; simpl; try reflexivity.
  change (sign_bit (sqrt (S754_finite false (m ^ 7) (7 * e))) = false).
  destruct (is_nan (sqrt (S754_finite false (m ^ 7) (7 * e)))) eqn:Hn.
  - destruct (sqrt _); try discriminate. reflexivity.
  - now rewrite sqrt_sign.
Qed.

Lemma pow_cr_half_power_of_zero : half_power_of_zero pow_cr.
Proof. intros s. now rewrite pow_cr_seven_halves. Qed.

End ConformingPow.

(** ** Sign of the result: the properties the specification states *)









(** ** When no operation rounds, the function is the real one *)

Section ExactEvaluation.

Lemma Q2R_0 : Q2R 0 = 0%R.
Proof. unfold Q2R. simpl. lra. Qed.

Lemma Q2R_square (q : Q) : Q2R (q ^ 2) = (Q2R q ^ 2)%R.
Proof. simpl. rewrite Q2R_mult. ring. Qed.

Lemma Q2R_seventh (q : Q) : Q2R (q ^ 7) = (Q2R q ^ 7)%R.
Proof. simpl. rewrite !Q2R_mult. ring. Qed.

Lemma exactly_spec (f : double) (q : Q) :
  exactly f q = true -> is_finite f = true /\ to_R f = Q2R q.
Proof.
  unfold exactly. intros H. apply andb_prop in H. destruct H as [Hf Hq].
  split; [exact Hf |]. apply Qeq_eqR. now apply Qeq_bool_eq.
Qed.

Lemma to_R_zero (f : double) : is_zero f = true -> to_R f = 0%R.
Proof. destruct f; try discriminate. intros _. apply Q2R_0. Qed.

Lemma to_R_positive (m : positive) (e : Z) :
  (0 < to_R (S754_finite false m e))%R.
Proof.
  unfold to_R. rewrite <- Q2R_0. apply Qlt_Rlt. simpl.
  apply Qmult_lt_0_compat; [reflexivity | now apply Qpower_0_lt].
Qed.

(** A finite square root is a zero or a positive number. *)
Lemma sqrt_finite_cases (d : double) :
  is_finite (sqrt d) = true ->
  is_zero (sqrt d) = true \/ exists m e, sqrt d = S754_finite false m e.
Proof.
  intros Hf.
  assert (Hn : is_nan (sqrt d) = false) by (destruct (sqrt d); now try discriminate).
  pose proof (sqrt_sign d Hn) as Hs.
  destruct (sqrt d) as [s | s | | s m' e'] eqn:E; try discriminate Hf.
  - now left.
  - right. exists m', e'.
    destruct d as [s0 | [|] | | [|] m e]; try discriminate E;
      simpl in Hs; now subst s.
Qed.

Variable pow : double -> double -> double.
Variables x0 x1 c0 c1 eps : double.
Hypothesis Hexact : B64.exact_evaluation pow x0 x1 c0 c1 eps = true.

(** The computed distance is the Euclidean distance of the arguments. *)
Lemma exact_distance :
  to_R (B64.computed_distance pow x0 x1 c0 c1)
  = distance (to_R x0) (to_R x1) (to_R c0) (to_R c1)
  /\ is_finite (B64.computed_distance pow x0 x1 c0 c1) = true.
Proof.
  unfold B64.exact_evaluation in Hexact.
  repeat (apply andb_prop in Hexact; destruct Hexact as [Hexact ?]).
  repeat match goal with
         | H : exactly _ _ = true |- _ => apply exactly_spec in H; destruct H as [? H]
         end.
  split; [| assumption].
  change (sqrt (add (pow (add (neg c0) x0) two) (pow (add (neg c1) x1) two)))
    with (B64.computed_distance pow x0 x1 c0 c1) in *.
  unfold distance.
  set (r := B64.computed_distance pow x0 x1 c0 c1) in *.
  assert (Hr : (0 <= to_R r)%R).
  { destruct (sqrt_finite_cases _ ltac:(eassumption)) as [Hz | (m & e & Hm)].
    - fold (B64.squared_distance pow x0 x1 c0 c1) in Hz.
      fold (B64.computed_distance pow x0 x1 c0 c1) in Hz. fold r in Hz.
      rewrite (to_R_zero r Hz). lra.
    - fold (B64.squared_distance pow x0 x1 c0 c1) in Hm.
      fold (B64.computed_distance pow x0 x1 c0 c1) in Hm. fold r in Hm.
      rewrite Hm. left. apply to_R_positive. }
  replace ((to_R x0 - to_R c0) ^ 2 + (to_R x1 - to_R c1) ^ 2)%R
    with (to_R r * to_R r)%R.
  - symmetry. now apply sqrt_square.
  - repeat match goal with
           | H : to_R _ = Q2R _ |- _ =>
               rewrite ?Q2R_plus, ?Q2R_minus, ?Q2R_mult, ?Q2R_square in H
           end.
    unfold to_R in *. congruence.
Qed.

(** The result is finite and is [eps^7 * r^7], in both branches. *)
Lemma exact_value :
  is_finite (B64.autofunc0 pow x0 x1 c0 c1 eps) = true
  /\ to_R (B64.autofunc0 pow x0 x1 c0 c1 eps)
     = (to_R eps ^ 7
        * distance (to_R x0) (to_R x1) (to_R c0) (to_R c1) ^ 7)%R.
Proof.
  destruct exact_distance as [Hd Hfin]. rewrite <- Hd.
  destruct (leb (B64.computed_distance pow x0 x1 c0 c1) zero) eqn:Hg.
  - rewrite (b64_guard_taken pow x0 x1 c0 c1 eps Hg).
    split; [reflexivity |].
    destruct (sqrt_finite_cases _ Hfin) as [Hz | (m & e & Hm)].
    + fold (B64.computed_distance pow x0 x1 c0 c1) in Hz.
      rewrite (to_R_zero _ Hz), (to_R_zero zero eq_refl). ring.
    + fold (B64.computed_distance pow x0 x1 c0 c1) in Hm.
      rewrite Hm in Hg. discriminate Hg.
  - rewrite (b64_guard_not_taken pow x0 x1 c0 c1 eps Hg).
    unfold B64.exact_evaluation in Hexact.
    apply andb_prop in Hexact. destruct Hexact as [_ Helse].
    fold (B64.squared_distance pow x0 x1 c0 c1) in Helse.
    fold (B64.computed_distance pow x0 x1 c0 c1) in Helse.
    rewrite Hg in Helse. simpl in Helse.
    apply andb_prop in Helse. destruct Helse as [Helse Hmul].
    apply andb_prop in Helse. destruct Helse as [He7 Hq].
    apply exactly_spec in He7, Hq, Hmul.
    destruct He7 as [_ He7], Hq as [_ Hq], Hmul as [Hmf Hmul].
    unfold B64.else_branch.
    fold (B64.squared_distance pow x0 x1 c0 c1).
    split; [exact Hmf |].
    rewrite Hmul, Q2R_mult. fold (to_R (pow eps seven)).
    fold (to_R (pow (B64.squared_distance pow x0 x1 c0 c1) seven_halves)).
    rewrite He7, Hq, !Q2R_mult. unfold to_R. ring.
Qed.

End ExactEvaluation.

(** X1.  When no operation of the evaluation rounds, overflows or
    underflows, the binary64 function returns the value of the real-number
    one, [(eps * r)^7], in both branches. *)
Theorem b64_exact_evaluation_is_real (pow : double -> double -> double)
    (x0 x1 c0 c1 eps : double) :
  B64.exact_evaluation pow x0 x1 c0 c1 eps = true ->
  to_R (B64.autofunc0 pow x0 x1 c0 c1 eps)
  = autofunc0 (to_R x0) (to_R x1) (to_R c0) (to_R c1) (to_R eps).
Proof.
  intros H. rewrite autofunc0_closed_form. now apply exact_value.
Qed.

Lemma b64_exact_evaluation_is_real_witness :
  B64.exact_evaluation pow_cr (of_int 5) (of_int (-12)) zero zero
    (div (of_int 1) (of_int 2)) = true
  /\ to_R (B64.autofunc0 pow_cr (of_int 5) (of_int (-12)) zero zero
             (div (of_int 1) (of_int 2)))
     = autofunc0 (to_R (of_int 5)) (to_R (of_int (-12))) (to_R zero) (to_R zero)
         (to_R (div (of_int 1) (of_int 2))).
Proof.
  assert (Hexact : B64.exact_evaluation pow_cr (of_int 5) (of_int (-12)) zero
                     zero (div (of_int 1) (of_int 2)) = true)
    by (vm_compute; reflexivity).
  exact (conj Hexact
          (b64_exact_evaluation_is_real pow_cr (of_int 5) (of_int (-12)) zero
             zero (div (of_int 1) (of_int 2)) Hexact)).
Defined.

(** ** Value of the result: the properties the specification states *)

Lemma distance_pos (x0 x1 c0 c1 : R) :
  x0 <> c0 -> (0 < distance x0 x1 c0 c1)%R.
Proof.
  intros Hne. destruct (distance_nonneg x0 x1 c0 c1) as [Hlt | Heq];
    [exact Hlt |].
  symmetry in Heq. apply distance_zero_iff in Heq. now destruct Heq.
Qed.

Lemma to_R_pos_neq_zero (m : positive) (e : Z) :
  to_R (S754_finite false m e) <> to_R zero.
Proof.
  pose proof (to_R_positive m e) as Hp.
  rewrite (to_R_zero zero eq_refl). lra.
Qed.

(** C1, as stated, fails on finite doubles: at [x0 = 2^-600], [eps = 2^600]
    the Euclidean distance is positive, but the square underflows, the test
    succeeds and the result is [0], not [eps^7 * r^7 > 0]. *)
Lemma b64_underflow_to_zero :
  valid (pow2 (-600)) = true /\ valid (pow2 600) = true
  /\ (0 < distance (to_R (pow2 (-600))) (to_R zero) (to_R zero) (to_R zero))%R
  /\ B64.autofunc0 pow_cr (pow2 (-600)) zero zero zero (pow2 600) = zero
  /\ to_R (B64.autofunc0 pow_cr (pow2 (-600)) zero zero zero (pow2 600))
     <> (to_R (pow2 600) ^ 7
         * distance (to_R (pow2 (-600))) (to_R zero) (to_R zero) (to_R zero)
           ^ 7)%R.
Proof.
  assert (Hx : pow2 (-600) = S754_finite false 4503599627370496 (-652))
    by (vm_compute; reflexivity).
  assert (He : pow2 600 = S754_finite false 4503599627370496 548)
    by (vm_compute; reflexivity).
  assert (Hd : (0 < distance (to_R (pow2 (-600))) (to_R zero) (to_R zero)
                             (to_R zero))%R).
  { apply distance_pos. rewrite Hx. apply to_R_pos_neq_zero. }
  assert (Hv : B64.autofunc0 pow_cr (pow2 (-600)) zero zero zero (pow2 600)
               = zero) by (vm_compute; reflexivity).
  assert (HP : (0 < to_R (pow2 600) ^ 7
                    * distance (to_R (pow2 (-600))) (to_R zero) (to_R zero)
                        (to_R zero) ^ 7)%R).
  { apply Rmult_lt_0_compat; apply pow_lt; [| exact Hd].
    rewrite He. apply to_R_positive. }
  repeat split; trivial.
  rewrite Hv. intros Heq. rewrite <- Heq in HP.
  rewrite (to_R_zero zero eq_refl) in HP. lra.
Qed.

(** C1, amended.  When no operation of the evaluation rounds, overflows or
    underflows, and the Euclidean distance [r] of the arguments is strictly
    positive, the [else] branch is taken and the result is finite with value
    [eps^7 * r^7]. *)
Theorem b64_away_from_center_exact (pow : double -> double -> double)
    (x0 x1 c0 c1 eps : double) :
  B64.exact_evaluation pow x0 x1 c0 c1 eps = true ->
  (0 < distance (to_R x0) (to_R x1) (to_R c0) (to_R c1))%R ->
  leb (B64.computed_distance pow x0 x1 c0 c1) zero = false
  /\ is_finite (B64.autofunc0 pow x0 x1 c0 c1 eps) = true
  /\ to_R (B64.autofunc0 pow x0 x1 c0 c1 eps)
     = (to_R eps ^ 7
        * distance (to_R x0) (to_R x1) (to_R c0) (to_R c1) ^ 7)%R.
Proof.
  intros Hexact Hr. split; [| now apply exact_value].
  destruct (exact_distance pow x0 x1 c0 c1 eps Hexact) as [Hd Hfin].
  destruct (sqrt_finite_cases _ Hfin) as [Hz | (m & e & Hm)].
  - fold (B64.computed_distance pow x0 x1 c0 c1) in Hz.
    rewrite <- Hd, (to_R_zero _ Hz) in Hr. lra.
  - fold (B64.computed_distance pow x0 x1 c0 c1) in Hm. now rewrite Hm.
Qed.

Lemma b64_away_from_center_exact_witness :
  B64.exact_evaluation pow_cr (of_int 3) (of_int 4) zero zero (of_int 2) = true
  /\ (0 < distance (to_R (of_int 3)) (to_R (of_int 4)) (to_R zero) (to_R zero))%R
  /\ leb (B64.computed_distance pow_cr (of_int 3) (of_int 4) zero zero) zero
     = false
  /\ is_finite (B64.autofunc0 pow_cr (of_int 3) (of_int 4) zero zero (of_int 2))
     = true
  /\ to_R (B64.autofunc0 pow_cr (of_int 3) (of_int 4) zero zero (of_int 2))
     = (to_R (of_int 2) ^ 7
        * distance (to_R (of_int 3)) (to_R (of_int 4)) (to_R zero) (to_R zero)
          ^ 7)%R.
Proof.
  assert (Hexact : B64.exact_evaluation pow_cr (of_int 3) (of_int 4) zero zero
                     (of_int 2) = true) by (vm_compute; reflexivity).
  assert (Hd : (0 < distance (to_R (of_int 3)) (to_R (of_int 4)) (to_R zero)
                             (to_R zero))%R).
  { apply distance_pos.
    replace (of_int 3) with (S754_finite false 6755399441055744 (-51))
      by (vm_compute; reflexivity).
    apply to_R_pos_neq_zero. }
  exact (conj Hexact
          (conj Hd
             (b64_away_from_center_exact pow_cr (of_int 3) (of_int 4) zero zero
                (of_int 2) Hexact Hd))).
Defined.

(** C6, as stated, fails on finite doubles: with [k = 2^40] and
    [eps = 2^-160] at distance one, [k * eps = 2^-120] is exact and the left
    side is [2^-840], but [eps^7] underflows and the right side is
    [k^7 * 0 = 0]. *)
Lemma b64_scaling_underflow :
  valid (pow2 40) = true /\ valid (pow2 (-160)) = true
  /\ mul (pow2 40) (pow2 (-160)) = pow2 (-120)
  /\ ltb zero (B64.computed_distance pow_cr (of_int 1) zero zero zero) = true
  /\ B64.autofunc0 pow_cr (of_int 1) zero zero zero
       (mul (pow2 40) (pow2 (-160))) = pow2 (-840)
  /\ mul (pow_cr (pow2 40) seven)
         (B64.autofunc0 pow_cr (of_int 1) zero zero zero (pow2 (-160))) = zero
  /\ pow2 (-840) <> zero.
Proof. vm_compute. repeat split. discriminate. Qed.

(** C6, amended.  When the product [k * eps], both evaluations, [pow(k, 7)]
    and the final product are exact, and the distance is strictly positive,
    the result at [k * eps] has the value of [k^7] times the result at
    [eps]. *)
Theorem b64_eps_homogeneous_exact (pow : double -> double -> double)
    (x0 x1 c0 c1 eps k : double) :
  B64.exact_scaling pow x0 x1 c0 c1 eps k = true ->
  (0 < distance (to_R x0) (to_R x1) (to_R c0) (to_R c1))%R ->
  to_R (B64.autofunc0 pow x0 x1 c0 c1 (mul k eps))
  = to_R (mul (pow k seven) (B64.autofunc0 pow x0 x1 c0 c1 eps))
  /\ to_R (B64.autofunc0 pow x0 x1 c0 c1 (mul k eps))
     = (to_R k ^ 7 * to_R (B64.autofunc0 pow x0 x1 c0 c1 eps))%R.
Proof.
  intros Hexact _. unfold B64.exact_scaling in Hexact.
  repeat (apply andb_prop in Hexact; destruct Hexact as [Hexact ?]).
  repeat match goal with
         | H : exactly _ _ = true |- _ =>
             apply exactly_spec in H; destruct H as [_ H]
         end.
  repeat match goal with
         | H : B64.exact_evaluation _ _ _ _ _ _ = true |- _ =>
             apply exact_value in H; destruct H as [_ H]
         end.
  match goal with
  | Hk : to_R (mul k eps) = _, Hl : to_R (B64.autofunc0 _ _ _ _ _ (mul k eps)) = _,
    Hr : to_R (B64.autofunc0 _ _ _ _ _ eps) = _, Hp : to_R (pow k seven) = _,
    Hm : to_R (mul (pow k seven) _) = _ |- _ =>
      rewrite Hm, Hl, Hk, !Q2R_mult; fold (to_R (pow k seven));
      fold (to_R (B64.autofunc0 pow x0 x1 c0 c1 eps));
      rewrite Hp, Hr, Q2R_seventh; unfold to_R; split; ring
  end.
Qed.

Lemma b64_eps_homogeneous_exact_witness :
  B64.exact_scaling pow_cr (of_int 3) (of_int 4) zero zero (of_int 2)
    (of_int (-3)) = true
  /\ (0 < distance (to_R (of_int 3)) (to_R (of_int 4)) (to_R zero) (to_R zero))%R
  /\ to_R (B64.autofunc0 pow_cr (of_int 3) (of_int 4) zero zero
             (mul (of_int (-3)) (of_int 2)))
     = to_R (mul (pow_cr (of_int (-3)) seven)
                 (B64.autofunc0 pow_cr (of_int 3) (of_int 4) zero zero
                    (of_int 2)))
  /\ to_R (B64.autofunc0 pow_cr (of_int 3) (of_int 4) zero zero
             (mul (of_int (-3)) (of_int 2)))
     = (to_R (of_int (-3)) ^ 7
        * to_R (B64.autofunc0 pow_cr (of_int 3) (of_int 4) zero zero
                  (of_int 2)))%R.
Proof.
  assert (Hexact : B64.exact_scaling pow_cr (of_int 3) (of_int 4) zero zero
                     (of_int 2) (of_int (-3)) = true)
    by (vm_compute; reflexivity).
  assert (Hd : (0 < distance (to_R (of_int 3)) (to_R (of_int 4)) (to_R zero)
                             (to_R zero))%R).
  { apply distance_pos.
    replace (of_int 3) with (S754_finite false 6755399441055744 (-51))
      by (vm_compute; reflexivity).
    apply to_R_pos_neq_zero. }
  exact (conj Hexact
          (conj Hd
             (b64_eps_homogeneous_exact pow_cr (of_int 3) (of_int 4) zero zero
                (of_int 2) (of_int (-3)) Hexact Hd))).
Defined.

(** ** Rounding stays on the grid, and does not round a number of the grid
       to zero *)

Section Grid.

Local Open Scope Z_scope.

Lemma fexp_ge_emin (z : Z) : emin <= fexp prec emax z.
Proof. unfold fexp, emin. apply Z.le_max_r. Qed.

Lemma shr_fexp_exponent (m e : Z) (l : location) :
  emin <= snd (shr_fexp prec emax m e l).
Proof.
  unfold shr_fexp, shr.
  pose proof (fexp_ge_emin (Zdigits2 m + e)) as Hf.
  destruct (fexp prec emax (Zdigits2 m + e) - e) as [| p | p] eqn:Hn;
    simpl; lia.
Qed.

Lemma binary_round_aux_on_grid (s : bool) (m e : Z) (l : location) :
  on_grid (binary_round_aux prec emax s m e l).
Proof.
  unfold binary_round_aux.
  destruct (shr_fexp prec emax m e l) as [mrs' e'].
  pose proof (shr_fexp_exponent
                (round_nearest_even (shr_m mrs') (loc_of_shr_record mrs'))
                e' loc_Exact) as He.
  destruct (shr_fexp prec emax _ e' loc_Exact) as [mrs'' e''].
  simpl in He. destruct (shr_m mrs''); [exact I | | exact I].
  destruct (e'' <=? emax - prec); [exact He | exact I].
Qed.

Lemma binary_normalize_on_grid (m e : Z) (sz : bool) :
  on_grid (binary_normalize prec emax m e sz).
Proof.
  destruct m as [| p | p]; simpl; trivial; unfold binary_round;
    destruct (shl_align _ _ _); apply binary_round_aux_on_grid.
Qed.

Lemma add_on_grid (x y : double) : on_grid x -> on_grid y -> on_grid (add x y).
Proof.
  destruct x as [[|] | [|] | | sx mx ex], y as [[|] | [|] | | sy my ey];
    simpl; trivial.
  intros _ _. apply binary_normalize_on_grid.
Qed.

(** Shifting right is dividing by a power of two. *)
Lemma shr_1_div (r : shr_record) : 0 <= shr_m r -> shr_m (shr_1 r) = shr_m r / 2.
Proof.
  destruct r as [m b c]. simpl. intros Hm.
  destruct m as [| [p | p |] | p]; simpl; try reflexivity; try lia.
  - apply Z.div_unique with 1; lia.
  - apply Z.div_unique with 0; lia.
Qed.

Lemma iter_shr_1_div (p : positive) (r : shr_record) :
  0 <= shr_m r ->
  0 <= shr_m (iter_pos shr_1 p r)
  /\ shr_m (iter_pos shr_1 p r) = shr_m r / 2 ^ Zpos p.
Proof.
  revert r. induction p as [p IH | p IH |]; intros r Hr; simpl iter_pos.
  - pose proof (shr_1_nonneg r Hr) as H1.
    destruct (IH _ H1) as [H2 E2]. destruct (IH _ H2) as [H3 E3].
    split; [exact H3 |].
    rewrite E3, E2, shr_1_div by exact Hr.
    rewrite !Z.div_div by (try apply Z.pow_pos_nonneg; lia).
    f_equal. change (2 * (2 ^ Z.pos p * 2 ^ Z.pos p) = 2 ^ Z.pos p~1).
    rewrite <- Z.pow_add_r, <- Z.pow_succ_r by lia. f_equal. lia.
  - destruct (IH _ Hr) as [H2 E2]. destruct (IH _ H2) as [H3 E3].
    split; [exact H3 |].
    rewrite E3, E2.
    rewrite !Z.div_div by (try apply Z.pow_pos_nonneg; lia).
    f_equal. rewrite <- Z.pow_add_r by lia. f_equal. lia.
  - split; [now apply shr_1_nonneg | now rewrite shr_1_div].
Qed.

(** The number of binary digits. *)
Lemma digits2_pos_size (m : positive) : digits2_pos m = Pos.size m.
Proof. induction m as [m IH | m IH |]; simpl; now rewrite ?IH. Qed.

Lemma digits2_lower (m : positive) : 2 ^ (Zpos (digits2_pos m) - 1) <= Zpos m.
Proof.
  rewrite digits2_pos_size.
  pose proof (Pos.size_le m) as H.
  apply Pos2Z.pos_le_pos in H. rewrite Pos2Z.inj_pow in H.
  replace (Z.pos (Pos.size m)) with (1 + (Z.pos (Pos.size m) - 1)) in H by lia.
  rewrite Z.pow_add_r in H by lia. change (2 ^ 1) with 2 in H. lia.
Qed.

(** A positive mantissa whose leading digit is above [emin] survives the
    shift to its rounding position. *)
Lemma shr_fexp_positive (m : positive) (e : Z) (l : location) :
  emin < Zpos (digits2_pos m) + e ->
  0 < shr_m (fst (shr_fexp prec emax (Zpos m) e l)).
Proof.
  intros He. unfold shr_fexp, shr. simpl Zdigits2.
  destruct (fexp prec emax (Zpos (digits2_pos m) + e) - e) as [| p | p] eqn:Hn;
    simpl; rewrite ?shr_record_of_loc_m; try lia.
  assert (Hr : 0 <= shr_m (shr_record_of_loc (Zpos m) l))
    by (rewrite shr_record_of_loc_m; lia).
  destruct (iter_shr_1_div p _ Hr) as [_ E]. rewrite E, shr_record_of_loc_m.
  assert (Hp : Zpos p <= Zpos (digits2_pos m) - 1).
  { unfold fexp in Hn. fold emin in Hn. unfold prec in Hn. lia. }
  apply Z.div_str_pos. split; [apply Z.pow_pos_nonneg; lia |].
  apply Z.le_trans with (2 ^ (Zpos (digits2_pos m) - 1)).
  - apply Z.pow_le_mono_r; lia.
  - apply digits2_lower.
Qed.

Lemma round_nearest_even_ge (m : Z) (l : location) :
  m <= round_nearest_even m l.
Proof. destruct l as [| []]; simpl; try destruct (Z.even m); lia. Qed.

Lemma binary_round_aux_nonzero (s : bool) (m : positive) (e : Z) (l : location) :
  emin < Zpos (digits2_pos m) + e ->
  is_zero (binary_round_aux prec emax s (Zpos m) e l) = false.
Proof.
  intros He. unfold binary_round_aux.
  pose proof (shr_fexp_positive m e l He) as H1.
  pose proof (shr_fexp_exponent (Zpos m) e l) as E1.
  destruct (shr_fexp prec emax (Zpos m) e l) as [mrs' e']. simpl in H1, E1.
  pose proof (round_nearest_even_ge (shr_m mrs') (loc_of_shr_record mrs')) as Hr.
  destruct (round_nearest_even (shr_m mrs') (loc_of_shr_record mrs'))
    as [| m1 | m1] eqn:Hm1; try lia.
  assert (He1 : emin < Zpos (digits2_pos m1) + e') by lia.
  pose proof (shr_fexp_positive m1 e' loc_Exact He1) as H2.
  destruct (shr_fexp prec emax (Zpos m1) e' loc_Exact) as [mrs'' e''].
  simpl in H2. destruct (shr_m mrs''); try lia.
  now destruct (e'' <=? emax - prec).
Qed.

(** The square root of a positive number of the grid is not zero. *)
Lemma sqrt_positive_nonzero (m : positive) (e : Z) :
  emin <= e -> is_zero (sqrt (S754_finite false m e)) = false.
Proof.
  intros He. unfold sqrt, SFsqrt, SFsqrt_core_binary.
  set (e' := Z.min (fexp prec emax (Z.div2 (Zdigits2 (Z.pos m) + e + 1)))
                   (Z.div2 e)).
  assert (He' : emin <= e' /\ 0 <= e - 2 * e').
  { pose proof (fexp_ge_emin (Z.div2 (Zdigits2 (Z.pos m) + e + 1))).
    pose proof (Z.div2_odd e) as Ho.
    assert (Hb : 0 <= Z.b2z (Z.odd e) <= 1) by (destruct (Z.odd e); simpl; lia).
    assert (Hemin : emin = -1074) by reflexivity.
    subst e'. lia. }
  set (m' := match e - 2 * e' with
             | 0 => Z.pos m
             | Z.pos _ => Z.shiftl (Z.pos m) (e - 2 * e')
             | Z.neg _ => 0
             end).
  assert (Hm' : 0 < m').
  { subst m'. destruct (e - 2 * e') as [| p | p] eqn:Hs; try lia.
    rewrite Z.shiftl_mul_pow2 by lia.
    apply Z.mul_pos_pos; [lia | apply Z.pow_pos_nonneg; lia]. }
  destruct (Z.sqrtrem m') as [q r] eqn:Hq.
  assert (Hq1 : q = Z.sqrt m') by (rewrite <- Z.sqrtrem_sqrt, Hq; reflexivity).
  assert (Hq0 : 0 < q) by (rewrite Hq1; now apply Z.sqrt_pos).
  destruct q as [| q | q]; try lia.
  apply binary_round_aux_nonzero. lia.
Qed.

(** With its argument on the grid, the test [sqrt(d) <= 0.0] succeeds only
    for a zero [d]. *)
Lemma guard_means_zero (d : double) :
  on_grid d -> leb (sqrt d) zero = true -> is_zero d = true.
Proof.
  intros Hg Hle.
  destruct d as [s | [|] | | [|] m e];
    try reflexivity; try (simpl in Hle; discriminate Hle).
  simpl in Hg.
  pose proof (sqrt_positive_nonzero m e Hg) as Hnz.
  assert (Hn : is_nan (sqrt (S754_finite false m e)) = false)
    by (destruct (sqrt (S754_finite false m e)); now try discriminate).
  pose proof (sqrt_sign _ Hn) as Hs.
  destruct (sqrt (S754_finite false m e)) as [s | [|] | | [|] m' e'];
    cbv in Hle, Hnz, Hn, Hs; congruence.
Qed.

End Grid.

(** ** The guard *)

Section Guard.

(** [x - y] and [-y + x] are the same double. *)
Lemma sub_as_add (x y : double) : sub x y = add (neg y) x.
Proof.
  destruct x as [[|] | [|] | | sx mx ex], y as [[|] | [|] | | sy my ey];
    try reflexivity.
  unfold sub, add, neg, SFsub, SFadd, SFopp. rewrite (Z.min_comm ey ex).
  f_equal. destruct sx, sy; simpl; lia.
Qed.

Lemma unguarded_is_else (pow : double -> double -> double)
    (x0 x1 c0 c1 eps : double) :
  B64.autofunc0_unguarded pow x0 x1 c0 c1 eps
  = B64.else_branch pow x0 x1 c0 c1 eps.
Proof. unfold B64.autofunc0_unguarded. now rewrite !sub_as_add. Qed.

Lemma pow_cr_square_on_grid : square_on_grid pow_cr.
Proof.
  intros x. rewrite pow_cr_two. destruct x as [s | s | | s m e]; simpl; trivial.
  unfold binary_round. destruct (shl_align _ _ _).
  apply binary_round_aux_on_grid.
Qed.

Lemma mul_finite_zero (x : double) (s : bool) :
  is_finite x = true -> is_zero (mul x (S754_zero s)) = true.
Proof. destruct x; simpl; intros H; trivial; discriminate. Qed.

End Guard.

(** C9, as stated, fails on finite doubles: at the center with
    [eps = 2^200], [eps^7] overflows; the function returns [0], the
    unguarded formula [inf * 0], NaN. *)
Lemma b64_guard_needed_on_overflow :
  valid (pow2 200) = true
  /\ B64.autofunc0 pow_cr zero zero zero zero (pow2 200) = zero
  /\ B64.autofunc0_unguarded pow_cr zero zero zero zero (pow2 200) = S754_nan.
Proof. vm_compute. repeat split. Qed.

(** C9, amended.  When [pow(eps, 7)] is finite (no overflow, [eps] neither
    infinite nor NaN), the function and the unguarded formula return the
    same double, up to the sign of a zero. *)
Theorem b64_guard_redundant_without_overflow
    (pow : double -> double -> double) (x0 x1 c0 c1 eps : double) :
  square_on_grid pow -> half_power_of_zero pow ->
  is_finite (pow eps seven) = true ->
  same_value (B64.autofunc0 pow x0 x1 c0 c1 eps)
             (B64.autofunc0_unguarded pow x0 x1 c0 c1 eps).
Proof.
  intros Hgrid Hhalf Hfin. rewrite unguarded_is_else.
  destruct (leb (B64.computed_distance pow x0 x1 c0 c1) zero) eqn:Hg.
  - right. rewrite (b64_guard_taken pow x0 x1 c0 c1 eps Hg).
    split; [reflexivity |].
    assert (Hd : is_zero (B64.squared_distance pow x0 x1 c0 c1) = true).
    { apply guard_means_zero; [| exact Hg].
      apply add_on_grid; apply Hgrid. }
    unfold B64.else_branch.
    fold (B64.squared_distance pow x0 x1 c0 c1).
    destruct (B64.squared_distance pow x0 x1 c0 c1) as [s | | |];
      try discriminate Hd.
    rewrite Hhalf. now apply mul_finite_zero.
  - left. now apply b64_guard_not_taken.
Qed.

Lemma b64_guard_redundant_without_overflow_witness :
  square_on_grid pow_cr /\ half_power_of_zero pow_cr
  /\ is_finite (pow_cr (of_int (-2)) seven) = true
  /\ same_value (B64.autofunc0 pow_cr (of_int 5) (of_int 1) (of_int 5) (of_int 1)
                   (of_int (-2)))
                (B64.autofunc0_unguarded pow_cr (of_int 5) (of_int 1) (of_int 5)
                   (of_int 1) (of_int (-2))).
Proof.
  assert (Hfin : is_finite (pow_cr (of_int (-2)) seven) = true)
    by (vm_compute; reflexivity).
  exact (conj pow_cr_square_on_grid
          (conj pow_cr_half_power_of_zero
             (conj Hfin
                (b64_guard_redundant_without_overflow pow_cr (of_int 5)
                   (of_int 1) (of_int 5) (of_int 1) (of_int (-2))
                   pow_cr_square_on_grid pow_cr_half_power_of_zero Hfin)))).
Defined.

(** ** Rounding depends on the value only *)

Section ScaleInvariance.

Local Open Scope Z_scope.

Lemma iter_pos_iter {A : Type} (f : A -> A) (n : positive) (a : A) :
  iter_pos f n a = Pos.iter f a n.
Proof.
  revert a. induction n as [n IH | n IH |]; intros a; simpl.
  - now rewrite !IH, <- !Pos.iter_swap.
  - now rewrite !IH.
  - reflexivity.
Qed.

Lemma iter_xO_value (m k : positive) :
  Zpos (Pos.iter xO m k) = Zpos m * 2 ^ Zpos k.
Proof.
  induction k as [| k IH] using Pos.peano_ind.
  - simpl. lia.
  - rewrite Pos.iter_succ, Pos2Z.inj_xO, IH, Pos2Z.inj_succ, Z.pow_succ_r; lia.
Qed.

Lemma iter_xO_digits (m k : positive) :
  Zpos (digits2_pos (Pos.iter xO m k)) = Zpos (digits2_pos m) + Zpos k.
Proof.
  induction k as [| k IH] using Pos.peano_ind.
  - simpl. lia.
  - rewrite Pos.iter_succ. simpl digits2_pos. lia.
Qed.

(** Shifting [m * 2^k] right [k] times gives [m], exactly. *)
Lemma shr_iter_xO (m k : positive) :
  iter_pos shr_1 k (Build_shr_record (Zpos (Pos.iter xO m k)) false false)
  = Build_shr_record (Zpos m) false false.
Proof.
  rewrite iter_pos_iter.
  induction k as [| k IH] using Pos.peano_ind.
  - reflexivity.
  - rewrite Pos.iter_succ_r, Pos.iter_succ. exact IH.
Qed.

Lemma binary_round_position (s : bool) (m : positive) (e : Z) :
  binary_round prec emax s m e
  = let '(mrs', e') := round_position m e in
    let '(mrs'', e'') :=
      shr_fexp prec emax
        (round_nearest_even (shr_m mrs') (loc_of_shr_record mrs')) e'
        loc_Exact in
    match shr_m mrs'' with
    | Z0 => S754_zero s
    | Zpos m0 =>
        if e'' <=? emax - prec then S754_finite s m0 e'' else S754_infinity s
    | Zneg _ => S754_nan
    end.
Proof.
  unfold binary_round, round_position, binary_round_aux.
  destruct (shl_align m e _) as [mz ez]. reflexivity.
Qed.

Lemma shr_fexp_exact (mz : positive) (ez n : Z) :
  fexp prec emax (Zpos (digits2_pos mz) + ez) - ez = n ->
  shr_fexp prec emax (Zpos mz) ez loc_Exact
  = shr (Build_shr_record (Zpos mz) false false) ez n.
Proof. intros <-. reflexivity. Qed.

Lemma fexp_iter_xO (m k : positive) (e e' : Z) :
  e' = e - Zpos k ->
  fexp prec emax (Zpos (digits2_pos (Pos.iter xO m k)) + e')
  = fexp prec emax (Zpos (digits2_pos m) + e).
Proof. intros ->. rewrite iter_xO_digits. f_equal. lia. Qed.

(** [m * 2^k] at exponent [e - k] and [m] at exponent [e] reach the same
    rounding position. *)
Lemma round_position_shift (m k : positive) (e : Z) :
  round_position (Pos.iter xO m k) (e - Zpos k) = round_position m e.
Proof.
  unfold round_position. rewrite (fexp_iter_xO m k e) by reflexivity.
  set (F := fexp prec emax (Zpos (digits2_pos m) + e)).
  unfold shl_align.
  destruct (F - e) as [| p1 | d1] eqn:H1;
    destruct (F - (e - Zpos k)) as [| p2 | d2] eqn:H2; try lia.
  - (* F = e *)
    rewrite (shr_fexp_exact (Pos.iter xO m k) (e - Zpos k) (Zpos k))
      by (rewrite (fexp_iter_xO m k e) by reflexivity; fold F; lia).
    rewrite (shr_fexp_exact m e 0) by (fold F; lia).
    unfold shr. rewrite shr_iter_xO. f_equal. lia.
  - (* e < F *)
    rewrite (shr_fexp_exact (Pos.iter xO m k) (e - Zpos k) (Zpos (p1 + k)))
      by (rewrite (fexp_iter_xO m k e) by reflexivity; fold F; lia).
    rewrite (shr_fexp_exact m e (Zpos p1)) by (fold F; lia).
    unfold shr.
    rewrite (iter_pos_iter shr_1 (p1 + k)), Pos.iter_add,
      <- !(iter_pos_iter shr_1).
    rewrite shr_iter_xO. f_equal. lia.
  - (* F < e, F = e - k *)
    assert (Hk : k = d1) by lia. subst k.
    rewrite (shr_fexp_exact (Pos.iter xO m d1) (e - Zpos d1) 0)
      by (rewrite (fexp_iter_xO m d1 e) by reflexivity; fold F; lia).
    rewrite (shr_fexp_exact (Pos.iter xO m d1) F 0)
      by (rewrite (fexp_iter_xO m d1 e) by lia; fold F; lia).
    unfold shr. f_equal. lia.
  - (* F < e, e - k < F *)
    assert (Hk : k = (p2 + d1)%positive) by lia. subst k.
    rewrite (shr_fexp_exact (Pos.iter xO m (p2 + d1)) (e - Zpos (p2 + d1))
               (Zpos p2))
      by (rewrite (fexp_iter_xO m (p2 + d1) e) by reflexivity; fold F; lia).
    rewrite (shr_fexp_exact (Pos.iter xO m d1) F 0)
      by (rewrite (fexp_iter_xO m d1 e) by lia; fold F; lia).
    unfold shr. rewrite Pos.iter_add, shr_iter_xO. f_equal. lia.
  - (* F < e - k *)
    assert (Hd : d1 = (d2 + k)%positive) by lia. subst d1.
    rewrite Pos.iter_add. reflexivity.
Qed.

Lemma binary_round_shift (s : bool) (m k : positive) (e : Z) :
  binary_round prec emax s (Pos.iter xO m k) (e - Zpos k)
  = binary_round prec emax s m e.
Proof. now rewrite !binary_round_position, round_position_shift. Qed.

(** Rounding [z * 2^k] at exponent [e - k] is rounding [z] at exponent
    [e]. *)
Lemma binary_normalize_shift (z : Z) (e k : Z) (sz : bool) :
  0 <= k ->
  binary_normalize prec emax (z * 2 ^ k) (e - k) sz
  = binary_normalize prec emax z e sz.
Proof.
  intros Hk. destruct k as [| k | k]; try lia.
  - now rewrite Z.mul_1_r, Z.sub_0_r.
  - destruct z as [| m | m].
    + reflexivity.
    + replace (Zpos m * 2 ^ Zpos k) with (Zpos (Pos.iter xO m k))
        by apply iter_xO_value.
      apply binary_round_shift.
    + replace (Zneg m * 2 ^ Zpos k) with (Zneg (Pos.iter xO m k))
        by (rewrite <- !Pos2Z.opp_pos, iter_xO_value; lia).
      apply binary_round_shift.
Qed.

End ScaleInvariance.

(** ** Sums of exact doubles *)

Section ExactSums.

Local Open Scope Z_scope.

Lemma shl_align_value (m : positive) (e e' : Z) :
  e' <= e -> Zpos (fst (shl_align m e e')) = Zpos m * 2 ^ (e - e').
Proof.
  intros He. unfold shl_align.
  destruct (e' - e) as [| p | d] eqn:Hd; simpl fst; try lia.
  - replace (e - e') with 0 by lia. simpl. lia.
  - rewrite iter_xO_value. f_equal. f_equal. lia.
Qed.

Lemma cond_Zopp_mul (s : bool) (a b : Z) :
  cond_Zopp s (a * b) = cond_Zopp s a * b.
Proof. destruct s; simpl; lia. Qed.

(** The sum of two finite numbers of the grid is the rounding of the exact
    sum. *)
Lemma add_finite_norm (sx sy : bool) (mx my : positive) (ex ey : Z) :
  emin <= ex -> emin <= ey ->
  add (S754_finite sx mx ex) (S754_finite sy my ey)
  = norm (scaled (S754_finite sx mx ex) + scaled (S754_finite sy my ey)).
Proof.
  intros Hx Hy. unfold add, SFadd, norm, scaled.
  set (ez := Z.min ex ey).
  assert (Hez : emin <= ez /\ ez <= ex /\ ez <= ey) by (subst ez; lia).
  rewrite !shl_align_value by lia.
  replace (cond_Zopp sx (Zpos mx * 2 ^ (ex - emin))
           + cond_Zopp sy (Zpos my * 2 ^ (ey - emin)))
    with ((cond_Zopp sx (Zpos mx * 2 ^ (ex - ez))
           + cond_Zopp sy (Zpos my * 2 ^ (ey - ez))) * 2 ^ (ez - emin)).
  - replace emin with (ez - (ez - emin)) at 2 by lia.
    rewrite binary_normalize_shift by lia. reflexivity.
  - rewrite Z.mul_add_distr_r, <- !cond_Zopp_mul, <- !Z.mul_assoc,
      <- !Z.pow_add_r by lia.
    do 2 f_equal; f_equal; f_equal; lia.
Qed.

(** A valid double is its own rounding. *)
Lemma valid_canonical (s : bool) (m : positive) (e : Z) :
  valid (S754_finite s m e) = true ->
  binary_round prec emax s m e = S754_finite s m e.
Proof.
  unfold valid, valid_binary, bounded, canonical_mantissa. intros H.
  apply andb_prop in H. destruct H as [Hc Hb]. apply Z.eqb_eq in Hc.
  unfold binary_round. rewrite Hc. unfold shl_align. rewrite Z.sub_diag.
  unfold binary_round_aux.
  rewrite (shr_fexp_exact m e 0) by lia. simpl.
  rewrite (shr_fexp_exact m e 0) by lia. simpl.
  change (e <=? 971) with (e <=? emax - prec). now rewrite Hb.
Qed.

Lemma valid_on_grid (f : double) : valid f = true -> on_grid f.
Proof.
  destruct f as [s | s | | s m e]; simpl; trivial.
  unfold valid, valid_binary, bounded, canonical_mantissa. intros H.
  apply andb_prop in H. destruct H as [Hc _]. apply Z.eqb_eq in Hc.
  rewrite <- Hc. apply fexp_ge_emin.
Qed.

Lemma norm_scaled_finite (s : bool) (m : positive) (e : Z) :
  emin <= e ->
  norm (scaled (S754_finite s m e)) = binary_round prec emax s m e.
Proof.
  intros He. unfold norm, scaled. rewrite cond_Zopp_mul.
  replace emin with (e - (e - emin)) at 2 by lia.
  rewrite binary_normalize_shift by lia. now destruct s.
Qed.

Lemma valid_normal (f : double) :
  valid f = true -> is_finite f = true -> normal f.
Proof.
  intros Hv Hf. destruct f as [s | s | | s m e]; try discriminate.
  - now left.
  - right. pose proof (valid_on_grid _ Hv) as Hg.
    repeat split; trivial.
    rewrite norm_scaled_finite by exact Hg. symmetry. now apply valid_canonical.
Qed.

(** Rounding commutes with negation. *)
Lemma neg_binary_round (s : bool) (m : positive) (e : Z) :
  neg (binary_round prec emax s m e) = binary_round prec emax (negb s) m e.
Proof.
  rewrite !binary_round_position.
  destruct (round_position m e) as [mrs' e'].
  destruct (shr_fexp prec emax _ e' loc_Exact) as [mrs'' e''].
  destruct (shr_m mrs''); trivial.
  now destruct (e'' <=? emax - prec).
Qed.

Lemma neg_norm (z : Z) : z <> 0 -> norm (- z) = neg (norm z).
Proof.
  intros Hz. destruct z as [| m | m]; [contradiction | |]; unfold norm; simpl.
  - now rewrite (neg_binary_round false).
  - now rewrite (neg_binary_round true).
Qed.

Lemma scaled_neg (f : double) : scaled (neg f) = - scaled f.
Proof.
  destruct f as [s | s | | s m e]; try reflexivity.
  unfold scaled, neg, SFopp. destruct s; cbv [cond_Zopp negb]; lia.
Qed.

Lemma scaled_finite_nonzero (s : bool) (m : positive) (e : Z) :
  emin <= e -> scaled (S754_finite s m e) <> 0.
Proof.
  intros He. unfold scaled.
  assert (0 < Zpos m * 2 ^ (e - emin))
    by (apply Z.mul_pos_pos; [lia | apply Z.pow_pos_nonneg; lia]).
  destruct s; cbv [cond_Zopp]; lia.
Qed.

Lemma normal_neg (f : double) : normal f -> normal (neg f).
Proof.
  destruct f as [s | s | | s m e]; intros [Hz | (Hf & Hg & Hn)];
    try discriminate; try (now left).
  right. repeat split; trivial.
  rewrite scaled_neg, neg_norm by now apply scaled_finite_nonzero.
  now rewrite <- Hn.
Qed.

Lemma normal_cases (f : double) :
  normal f ->
  (exists s, f = S754_zero s)
  \/ (exists s m e, f = S754_finite s m e /\ emin <= e /\ f = norm (scaled f)).
Proof.
  intros [Hz | (Hf & Hg & Hn)].
  - left. destruct f as [s | | |]; try discriminate. now exists s.
  - destruct f as [s | s | | s m e]; try discriminate.
    + left. now exists s.
    + right. now exists s, m, e.
Qed.

(** The sum of two normal doubles is the rounding of the exact sum, up to
    the sign of a zero. *)
Lemma add_normal (u v : double) :
  normal u -> normal v -> same_value (add u v) (norm (scaled u + scaled v)).
Proof.
  intros Hu Hv.
  destruct (normal_cases u Hu) as [[su ->] | (su & mu & eu & -> & Hgu & Hnu)];
    destruct (normal_cases v Hv) as [[sv ->] | (sv & mv & ev & -> & Hgv & Hnv)].
  - right. split; [now destruct su, sv | reflexivity].
  - left. simpl scaled at 1. rewrite Z.add_0_l. destruct su; exact Hnv.
  - left. simpl (scaled (S754_zero sv)). rewrite Z.add_0_r.
    destruct sv; exact Hnu.
  - left. now apply add_finite_norm.
Qed.

(** An exact sum of normal doubles is normal. *)
Lemma exact_sum_normal (x t : double) :
  normal x -> normal t -> exact_sum x t = true -> normal (add x t).
Proof.
  intros Hx Ht Hex. unfold exact_sum in Hex.
  apply andb_prop in Hex. destruct Hex as [Hfin Hval].
  apply Z.eqb_eq in Hval.
  destruct (add_normal x t Hx Ht) as [Heq | [Hz _]].
  - right. repeat split; trivial.
    + apply add_on_grid.
      * destruct Hx as [Hz | (_ & Hg & _)]; [now destruct x | exact Hg].
      * destruct Ht as [Hz | (_ & Hg & _)]; [now destruct t | exact Hg].
    + now rewrite Hval.
  - now left.
Qed.

Lemma same_value_sym (a b : double) : same_value a b -> same_value b a.
Proof. intros [-> | [Ha Hb]]; [now left | now right]. Qed.

Lemma same_value_trans (a b c : double) :
  same_value a b -> same_value b c -> same_value a c.
Proof.
  intros [-> | [Ha Hb]] [<- | [Hb' Hc]]; try (now left); now right.
Qed.

(** The difference of the translated coordinates is the difference of the
    coordinates. *)
Lemma translated_difference (x c t : double) :
  normal x -> normal c -> normal t ->
  exact_sum x t = true -> exact_sum c t = true ->
  same_value (add (neg (add c t)) (add x t)) (add (neg c) x).
Proof.
  intros Hx Hc Ht Hxt Hct.
  pose proof (exact_sum_normal x t Hx Ht Hxt) as HX.
  pose proof (exact_sum_normal c t Hc Ht Hct) as HC.
  apply same_value_trans with (norm (scaled (neg c) + scaled x)).
  - replace (scaled (neg c) + scaled x)
      with (scaled (neg (add c t)) + scaled (add x t)).
    + apply add_normal; [now apply normal_neg | exact HX].
    + unfold exact_sum in Hxt, Hct.
      apply andb_prop in Hxt, Hct. destruct Hxt as [_ Hxt], Hct as [_ Hct].
      apply Z.eqb_eq in Hxt, Hct. rewrite !scaled_neg, Hxt, Hct. lia.
  - apply same_value_sym, add_normal; [now apply normal_neg | exact Hx].
Qed.

Lemma same_value_square (pow : double -> double -> double) (a b : double) :
  square_even pow -> same_value a b -> pow a two = pow b two.
Proof.
  intros Heven [-> | [Ha Hb]]; [reflexivity |].
  destruct a as [sa | | |], b as [sb | | |]; try discriminate.
  destruct sa, sb; trivial.
  - exact (Heven (S754_zero false)).
  - symmetry. exact (Heven (S754_zero false)).
Qed.

End ExactSums.

(** ** Translation *)

(** C10, as stated, fails on finite doubles: translating [x0 = 1],
    [c0 = 0] by [t0 = 2^53] rounds [1 + 2^53] to [2^53]; the translated
    call returns [0], the original [1]. *)
Lemma b64_translation_rounds :
  valid (pow2 53) = true
  /\ B64.autofunc0 pow_cr (add (of_int 1) (pow2 53)) (add zero zero)
       (add zero (pow2 53)) (add zero zero) (of_int 1) = zero
  /\ B64.autofunc0 pow_cr (of_int 1) zero zero zero (of_int 1) = of_int 1
  /\ of_int 1 <> zero.
Proof. vm_compute. repeat split. discriminate. Qed.

(** C10, amended.  When the translated coordinates [x0+t0], [x1+t1],
    [c0+t0], [c1+t1] are computed without rounding, translating the
    evaluation point and the center does not change the result: the two
    calls return the same double. *)
Theorem b64_translation_invariant_exact (pow : double -> double -> double)
    (x0 x1 c0 c1 eps t0 t1 : double) :
  square_even pow ->
  B64.exact_translation x0 x1 c0 c1 t0 t1 = true ->
  B64.autofunc0 pow (add x0 t0) (add x1 t1) (add c0 t0) (add c1 t1) eps
  = B64.autofunc0 pow x0 x1 c0 c1 eps.
Proof.
  intros Heven Hex. unfold B64.exact_translation in Hex.
  repeat (apply andb_prop in Hex; destruct Hex as [Hex ?]).
  assert (Hsq0 : pow (add (neg (add c0 t0)) (add x0 t0)) two
               = pow (add (neg c0) x0) two).
  { apply same_value_square; [exact Heven |].
    apply translated_difference; trivial; now apply valid_normal. }
  assert (Hsq1 : pow (add (neg (add c1 t1)) (add x1 t1)) two
               = pow (add (neg c1) x1) two).
  { apply same_value_square; [exact Heven |].
    apply translated_difference; trivial; now apply valid_normal. }
  unfold B64.autofunc0. now rewrite Hsq0, Hsq1.
Qed.

Lemma b64_translation_invariant_exact_witness :
  square_even pow_cr
  /\ B64.exact_translation (of_int 3) (of_int 4) (of_int 1) (of_int (-2))
       (of_int 10) (of_int (-7)) = true
  /\ B64.autofunc0 pow_cr (add (of_int 3) (of_int 10))
       (add (of_int 4) (of_int (-7))) (add (of_int 1) (of_int 10))
       (add (of_int (-2)) (of_int (-7))) (of_int 2)
     = B64.autofunc0 pow_cr (of_int 3) (of_int 4) (of_int 1) (of_int (-2))
         (of_int 2).
Proof.
  assert (Hex : B64.exact_translation (of_int 3) (of_int 4) (of_int 1)
                  (of_int (-2)) (of_int 10) (of_int (-7)) = true)
    by (vm_compute; reflexivity).
  exact (conj pow_cr_square_even
          (conj Hex
             (b64_translation_invariant_exact pow_cr (of_int 3) (of_int 4)
                (of_int 1) (of_int (-2)) (of_int 2) (of_int 10) (of_int (-7))
                pow_cr_square_even Hex))).
Defined.

(** * Further properties of the function on binary64 *)

(** ** Sums and differences *)

Section Sums.

Local Open Scope Z_scope.

Lemma add_comm (x y : double) : add x y = add y x.
Proof.
  destruct x as [[|] | [|] | | sx mx ex], y as [[|] | [|] | | sy my ey];
    try reflexivity.
  unfold add, SFadd. rewrite (Z.min_comm ey ex), Z.add_comm. reflexivity.
Qed.

(** [-c + c] is [+0] for every finite [c]. *)
Lemma add_neg_self (c : double) :
  is_finite c = true -> add (neg c) c = zero.
Proof.
  destruct c as [[|] | s | | s m e]; try discriminate; try reflexivity.
  intros _. unfold add, neg, SFopp, SFadd.
  replace (cond_Zopp (negb s) (Zpos (fst (shl_align m e (Z.min e e))))
           + cond_Zopp s (Zpos (fst (shl_align m e (Z.min e e)))))
    with 0 by (destruct s; cbv [cond_Zopp negb]; lia).
  reflexivity.
Qed.

Lemma binary_normalize_opp (z e : Z) :
  z <> 0 ->
  binary_normalize prec emax (- z) e false
  = neg (binary_normalize prec emax z e false).
Proof.
  intros Hz. destruct z as [| m | m]; [contradiction | |]; simpl.
  - now rewrite (neg_binary_round false).
  - now rewrite (neg_binary_round true).
Qed.

Lemma add_neg_swap_finite (sx sc : bool) (mx mc : positive) (ex ec : Z) :
  same_value (add (neg (S754_finite sx mx ex)) (S754_finite sc mc ec))
             (neg (add (neg (S754_finite sc mc ec)) (S754_finite sx mx ex))).
Proof.
  unfold add, neg, SFopp, SFadd. rewrite (Z.min_comm ec ex).
  set (ez := Z.min ex ec).
  set (X := Zpos (fst (shl_align mx ex ez))).
  set (C := Zpos (fst (shl_align mc ec ez))).
  replace (cond_Zopp (negb sx) X + cond_Zopp sc C)
    with (- (cond_Zopp (negb sc) C + cond_Zopp sx X))
    by (destruct sx, sc; cbv [cond_Zopp negb]; lia).
  destruct (Z.eq_dec (cond_Zopp (negb sc) C + cond_Zopp sx X) 0) as [Hz | Hnz].
  - rewrite Hz. right. split; reflexivity.
  - left. now apply binary_normalize_opp.
Qed.

(** Exchanging the two operands of [-c + x] negates the result, or leaves a
    zero. *)
Lemma add_neg_swap (x c : double) :
  same_value (add (neg x) c) (neg (add (neg c) x)).
Proof.
  destruct x as [[|] | [|] | | [|] mx ex], c as [[|] | [|] | | [|] mc ec];
    try (left; reflexivity); try (right; split; reflexivity);
    apply add_neg_swap_finite.
Qed.

Lemma square_swap (pow : double -> double -> double) (x c : double) :
  square_even pow -> pow (add (neg x) c) two = pow (add (neg c) x) two.
Proof.
  intros Heven.
  rewrite (same_value_square pow _ _ Heven (add_neg_swap x c)).
  apply Heven.
Qed.

End Sums.

(** ** Absolute values *)

Section Abs.

Lemma abs_binary_round_aux (s : bool) (m e : Z) (l : location) :
  abs (binary_round_aux prec emax s m e l)
  = binary_round_aux prec emax false m e l.
Proof.
  unfold binary_round_aux.
  destruct (shr_fexp prec emax m e l) as [mrs' e'].
  destruct (shr_fexp prec emax _ e' loc_Exact) as [mrs'' e''].
  destruct (shr_m mrs''); trivial.
  now destruct (e'' <=? emax - prec)%Z.
Qed.

Lemma abs_mul (x y : double) : abs (mul x y) = mul (abs x) (abs y).
Proof.
  destruct x as [sx | sx | | sx mx ex], y as [sy | sy | | sy my ey];
    try reflexivity.
  unfold mul, SFmul, abs, SFabs. simpl xorb.
  apply (abs_binary_round_aux (xorb sx sy)).
Qed.

Lemma abs_unsigned (f : double) : sign_bit f = false -> abs f = f.
Proof.
  destruct f as [[|] | [|] | | [|] m e]; simpl; intros H;
    try reflexivity; discriminate.
Qed.

Lemma abs_signed (f : double) : sign_bit f = true -> abs f = neg f.
Proof.
  destruct f as [[|] | [|] | | [|] m e]; simpl; intros H;
    try reflexivity; discriminate.
Qed.

(** [|pow(eps, 7)| = pow(|eps|, 7)]. *)
Lemma abs_seventh (pow : double -> double -> double) (eps : double) :
  seventh_odd pow -> seventh_keeps_sign pow ->
  abs (pow eps seven) = pow (abs eps) seven.
Proof.
  intros Hodd Hsign.
  destruct (is_nan (pow eps seven)) eqn:Hn.
  - destruct (sign_bit eps) eqn:Hs.
    + rewrite (abs_signed eps Hs), Hodd.
      destruct (pow eps seven); try discriminate. reflexivity.
    + rewrite (abs_unsigned eps Hs). destruct (pow eps seven); try discriminate.
      reflexivity.
  - pose proof (Hsign eps Hn) as Hp.
    destruct (sign_bit eps) eqn:Hs.
    + rewrite (abs_signed eps Hs), Hodd. now apply abs_signed.
    + rewrite (abs_unsigned eps Hs). now apply abs_unsigned.
Qed.

End Abs.

(** ** At the center, and where the guard applies *)

(** X14.  At the center the function returns [+0.0], for every finite
    center and every [eps], infinities and NaN included: the test does not
    look at [eps]. *)
Theorem b64_at_center (pow : double -> double -> double) (c0 c1 eps : double) :
  square_of_zero pow ->
  is_finite c0 = true -> is_finite c1 = true ->
  B64.autofunc0 pow c0 c1 c0 c1 eps = zero.
Proof.
  intros Hsq H0 H1. unfold B64.autofunc0.
  rewrite !add_neg_self by assumption. rewrite Hsq. reflexivity.
Qed.

Lemma b64_at_center_witness :
  square_of_zero pow_cr
  /\ is_finite (of_int 5) = true /\ is_finite (pow2 (-1074)) = true
  /\ B64.autofunc0 pow_cr (of_int 5) (pow2 (-1074)) (of_int 5) (pow2 (-1074))
       S754_nan = zero.
Proof.
  assert (Hsq : square_of_zero pow_cr) by reflexivity.
  assert (H0 : is_finite (of_int 5) = true) by reflexivity.
  assert (H1 : is_finite (pow2 (-1074)) = true) by reflexivity.
  exact (conj Hsq
          (conj H0
             (conj H1
                (b64_at_center pow_cr (of_int 5) (pow2 (-1074)) S754_nan
                   Hsq H0 H1)))).
Defined.

(** X2.  The test [sqrt(d) <= 0.0] is a test for a zero squared distance
    [d]: the function returns [+0.0] when [d] is [+0] or [-0], and the value
    of the [else] branch otherwise, also when [d] is NaN. *)
Theorem b64_guard_is_zero_test (pow : double -> double -> double)
    (x0 x1 c0 c1 eps : double) :
  square_on_grid pow ->
  B64.autofunc0 pow x0 x1 c0 c1 eps
  = if is_zero (B64.squared_distance pow x0 x1 c0 c1) then zero
    else B64.else_branch pow x0 x1 c0 c1 eps.
Proof.
  intros Hgrid.
  destruct (leb (B64.computed_distance pow x0 x1 c0 c1) zero) eqn:Hg.
  - rewrite (b64_guard_taken pow x0 x1 c0 c1 eps Hg).
    rewrite guard_means_zero; [reflexivity | | exact Hg].
    apply add_on_grid; apply Hgrid.
  - rewrite (b64_guard_not_taken pow x0 x1 c0 c1 eps Hg).
    unfold B64.computed_distance in Hg.
    destruct (B64.squared_distance pow x0 x1 c0 c1) as [s | | |];
      try reflexivity.
    discriminate Hg.
Qed.

Lemma b64_guard_is_zero_test_witness :
  square_on_grid pow_cr
  /\ B64.autofunc0 pow_cr (pow2 (-600)) zero zero zero (pow2 600)
     = if is_zero (B64.squared_distance pow_cr (pow2 (-600)) zero zero zero)
       then zero
       else B64.else_branch pow_cr (pow2 (-600)) zero zero zero (pow2 600).
Proof.
  exact (conj pow_cr_square_on_grid
          (b64_guard_is_zero_test pow_cr (pow2 (-600)) zero zero zero
             (pow2 600) pow_cr_square_on_grid)).
Defined.

(** ** Sign *)

(** X4.  For [eps <= 0] the result is never positive: it is [<= 0], or
    NaN. *)
Theorem b64_never_positive (pow : double -> double -> double)
    (x0 x1 c0 c1 eps : double) :
  half_power_unsigned pow -> seventh_keeps_sign pow -> seventh_of_zero pow ->
  leb eps zero = true ->
  ltb zero (B64.autofunc0 pow x0 x1 c0 c1 eps) = false.
Proof.
  intros Hhalf Hsev Hzero Heps.
  pose proof (result_cases pow x0 x1 c0 c1 eps Hhalf Hsev) as Hcases.
  apply leb_inv_zero in Heps. destruct Heps as [_ [Hz | Hs]].
  - destruct eps as [s | | |]; try discriminate.
    destruct (result_zero_eps pow x0 x1 c0 c1 s Hzero) as [H | H];
      destruct (B64.autofunc0 pow x0 x1 c0 c1 (S754_zero s)); try discriminate;
      reflexivity.
  - destruct Hcases as [-> | [H | [_ H]]]; [reflexivity | |].
    + destruct (B64.autofunc0 pow x0 x1 c0 c1 eps); try discriminate. reflexivity.
    + rewrite Hs in H.
      destruct (ltb zero (B64.autofunc0 pow x0 x1 c0 c1 eps)) eqn:Hlt; trivial.
      apply ltb_zero_inv in Hlt. destruct Hlt as (_ & _ & Hpos). congruence.
Qed.

Lemma b64_never_positive_witness :
  half_power_unsigned pow_cr /\ seventh_keeps_sign pow_cr
  /\ seventh_of_zero pow_cr /\ leb (of_int (-1)) zero = true
  /\ ltb zero (B64.autofunc0 pow_cr (of_int 1) zero zero zero (of_int (-1)))
     = false.
Proof.
  assert (Heps : leb (of_int (-1)) zero = true) by reflexivity.
  exact (conj pow_cr_half_power_unsigned
          (conj pow_cr_seventh_keeps_sign
             (conj pow_cr_seventh_of_zero
                (conj Heps
                   (b64_never_positive pow_cr (of_int 1) zero zero zero
                      (of_int (-1)) pow_cr_half_power_unsigned
                      pow_cr_seventh_keeps_sign pow_cr_seventh_of_zero
                      Heps))))).
Defined.

(** ** NaN *)

Section NaN.

Lemma add_nan_r (x : double) : add x S754_nan = S754_nan.
Proof. now destruct x as [[|] | [|] | | s m e]. Qed.

Lemma mul_nan_r (x : double) : mul x S754_nan = S754_nan.
Proof. now destruct x. Qed.

End NaN.

(** X17.  A NaN coordinate gives a NaN result. *)
Theorem b64_nan_coordinate (pow : double -> double -> double)
    (x0 x1 c0 c1 eps : double) :
  pow_nan pow ->
  is_nan x0 || is_nan x1 || is_nan c0 || is_nan c1 = true ->
  B64.autofunc0 pow x0 x1 c0 c1 eps = S754_nan.
Proof.
  intros (Hn2 & _ & Hn72) Hnan.
  assert (Hd : B64.squared_distance pow x0 x1 c0 c1 = S754_nan).
  { unfold B64.squared_distance.
    repeat (apply orb_prop in Hnan; destruct Hnan as [Hnan | Hnan]).
    - destruct x0; try discriminate. now rewrite add_nan_r, Hn2.
    - destruct x1; try discriminate. now rewrite add_nan_r, Hn2, add_nan_r.
    - destruct c0; try discriminate. simpl neg.
      change (add S754_nan x0) with S754_nan. now rewrite Hn2.
    - destruct c1; try discriminate. simpl neg.
      change (add S754_nan x1) with S754_nan. now rewrite Hn2, add_nan_r. }
  unfold B64.autofunc0. fold (B64.squared_distance pow x0 x1 c0 c1).
  rewrite Hd, Hn72. simpl. apply mul_nan_r.
Qed.

Lemma b64_nan_coordinate_witness :
  pow_nan pow_cr
  /\ is_nan (of_int 1) || is_nan S754_nan || is_nan zero || is_nan zero = true
  /\ B64.autofunc0 pow_cr (of_int 1) S754_nan zero zero (of_int 2) = S754_nan.
Proof.
  assert (Hnan : is_nan (of_int 1) || is_nan S754_nan || is_nan zero
                 || is_nan zero = true) by reflexivity.
  exact (conj pow_cr_nan
          (conj Hnan
             (b64_nan_coordinate pow_cr (of_int 1) S754_nan zero zero (of_int 2)
                pow_cr_nan Hnan))).
Defined.

(** ** Symmetries that hold bit for bit *)

(** X15.  Exchanging the evaluation point and the center returns the same
    double, for all arguments. *)
Theorem b64_symmetric (pow : double -> double -> double)
    (x0 x1 c0 c1 eps : double) :
  square_even pow ->
  B64.autofunc0 pow x0 x1 c0 c1 eps = B64.autofunc0 pow c0 c1 x0 x1 eps.
Proof.
  intros Heven. unfold B64.autofunc0.
  now rewrite (square_swap pow x0 c0 Heven), (square_swap pow x1 c1 Heven).
Qed.

Lemma b64_symmetric_witness :
  square_even pow_cr
  /\ B64.autofunc0 pow_cr (of_int 3) (of_int 4) (pow2 (-3)) (of_int (-1))
       (of_int 2)
     = B64.autofunc0 pow_cr (pow2 (-3)) (of_int (-1)) (of_int 3) (of_int 4)
         (of_int 2).
Proof.
  exact (conj pow_cr_square_even
          (b64_symmetric pow_cr (of_int 3) (of_int 4) (pow2 (-3)) (of_int (-1))
             (of_int 2) pow_cr_square_even)).
Defined.

(** X18.  Exchanging the two coordinate axes returns the same double. *)
Theorem b64_axis_swap (pow : double -> double -> double)
    (x0 x1 c0 c1 eps : double) :
  B64.autofunc0 pow x1 x0 c1 c0 eps = B64.autofunc0 pow x0 x1 c0 c1 eps.
Proof.
  unfold B64.autofunc0.
  now rewrite (add_comm (pow (add (neg c1) x1) two)).
Qed.

Lemma neg_involutive (f : double) : neg (neg f) = f.
Proof. destruct f as [[|] | [|] | | [|] m e]; reflexivity. Qed.

(** X19.  Reflecting the evaluation point and the center through the origin
    returns the same double. *)
Theorem b64_point_reflection (pow : double -> double -> double)
    (x0 x1 c0 c1 eps : double) :
  square_even pow ->
  B64.autofunc0 pow (neg x0) (neg x1) (neg c0) (neg c1) eps
  = B64.autofunc0 pow x0 x1 c0 c1 eps.
Proof.
  intros Heven. unfold B64.autofunc0. rewrite !neg_involutive.
  rewrite (add_comm c0 (neg x0)), (add_comm c1 (neg x1)).
  now rewrite (square_swap pow x0 c0 Heven), (square_swap pow x1 c1 Heven).
Qed.

Lemma b64_point_reflection_witness :
  square_even pow_cr
  /\ B64.autofunc0 pow_cr (neg (of_int 3)) (neg (of_int 4)) (neg (pow2 (-3)))
       (neg (of_int (-1))) (of_int 2)
     = B64.autofunc0 pow_cr (of_int 3) (of_int 4) (pow2 (-3)) (of_int (-1))
         (of_int 2).
Proof.
  exact (conj pow_cr_square_even
          (b64_point_reflection pow_cr (of_int 3) (of_int 4) (pow2 (-3))
             (of_int (-1)) (of_int 2) pow_cr_square_even)).
Defined.

(** X16.  The absolute value of the result is the result at [|eps|], the
    same double. *)
Theorem b64_abs (pow : double -> double -> double) (x0 x1 c0 c1 eps : double) :
  seventh_odd pow -> seventh_keeps_sign pow -> half_power_unsigned pow ->
  abs (B64.autofunc0 pow x0 x1 c0 c1 eps)
  = B64.autofunc0 pow x0 x1 c0 c1 (abs eps).
Proof.
  intros Hodd Hsign Hhalf.
  destruct (leb (B64.computed_distance pow x0 x1 c0 c1) zero) eqn:Hg.
  - now rewrite !(b64_guard_taken pow x0 x1 c0 c1 _ Hg).
  - rewrite !(b64_guard_not_taken pow x0 x1 c0 c1 _ Hg).
    unfold B64.else_branch.
    rewrite abs_mul, (abs_seventh pow eps Hodd Hsign).
    now rewrite (abs_unsigned (pow _ seven_halves)) by apply Hhalf.
Qed.

Lemma pow_cr_seventh_odd : seventh_odd pow_cr.
Proof.
  intros x. rewrite !pow_cr_seven.
  destruct x as [[|] | [|] | | [|] m e]; try reflexivity; simpl;
    now rewrite (neg_binary_round _).
Qed.

Lemma b64_abs_witness :
  seventh_odd pow_cr /\ seventh_keeps_sign pow_cr /\ half_power_unsigned pow_cr
  /\ abs (B64.autofunc0 pow_cr (of_int 3) (of_int 4) zero zero (of_int (-2)))
     = B64.autofunc0 pow_cr (of_int 3) (of_int 4) zero zero (abs (of_int (-2))).
Proof.
  exact (conj pow_cr_seventh_odd
          (conj pow_cr_seventh_keeps_sign
             (conj pow_cr_half_power_unsigned
                (b64_abs pow_cr (of_int 3) (of_int 4) zero zero (of_int (-2))
                   pow_cr_seventh_odd pow_cr_seventh_keeps_sign
                   pow_cr_half_power_unsigned)))).
Defined.
